(** * Maze generation, layered BFS and random walk of [bfs.py]

    A shallow embedding of the computational core of the Manim scene
    [BFSVsRandomWalkScene] (file [python/bfs.py]): the helpers
    [_generate_maze], [_neighbors], [_bfs_layers], [_reconstruct_path], the
    random-walk updater [rw_updater] and the part of [construct] that builds
    the maze and runs the search.  Everything that only drives the renderer
    (squares, colours, animations, counters) is left out. *)

From Stdlib Require Import ZArith Lia PrimFloat.
From stdpp Require Import base option list gmap sets.

#[local] Set Warnings "-clear-no-such-hyp".

(** ** Data model *)

(** A cell is the Python tuple [(x, y)] of two integers; a grid is the list
    of rows [maze], read as [maze[y][x]], [True] meaning free. *)
Abbreviation Cell := (Z * Z)%type.
Abbreviation Grid := (list (list bool)).
(** The dictionary [parent]; the Python value [None] is [None : option Cell]. *)
Abbreviation ParentMap := (gmap Cell (option Cell)).

(** Exceptions the modelled code can raise. *)
Inductive exn : Type := IndexError.

(** Result of running a piece of code: a value, an exception, or the loop
    budget of the model ran out. *)
Inductive outcome (A : Type) : Type :=
  | Done (a : A)
  | Raise (e : exn)
  | Timeout.
Arguments Done {A} a.
Arguments Raise {A} e.
Arguments Timeout {A}.

#[global] Instance outcome_ret : MRet outcome := λ A a, Done a.
#[global] Instance outcome_bind : MBind outcome := λ A B f m,
  match m with
  | Done a => f a
  | Raise e => Raise e
  | Timeout => Timeout
  end.

(** ** The caller-owned maze as mutable state

    [maze] is a Python list of lists that the scene creates once and hands to
    every helper by reference.  Code that receives it runs in a state monad
    over the grid, with exceptions. *)
Definition M (A : Type) : Type := Grid → outcome (A * Grid).

#[global] Instance M_ret : MRet M := λ A a g, Done (a, g).
#[global] Instance M_bind : MBind M := λ A B f m g,
  match m g with
  | Done (a, g') => f a g'
  | Raise e => Raise e
  | Timeout => Timeout
  end.

Definition raise {A} (e : exn) : M A := λ _, Raise e.
Definition timeout {A} : M A := λ _, Timeout.

(** Python subscript [l[i]]: negative indices count from the end, anything
    outside [-len(l) .. len(l)-1] raises [IndexError]. *)
Definition py_index {A} (l : list A) (i : Z) : option nat :=
  let len := Z.of_nat (length l) in
  if (0 <=? i)%Z then (if (i <? len)%Z then Some (Z.to_nat i) else None)
  else if (- len <=? i)%Z then Some (Z.to_nat (len + i)) else None.

Definition py_get {A} (l : list A) (i : Z) : option A :=
  j ← py_index l i; l !! j.

(** [len(maze)] *)
Definition maze_len : M Z := λ g, Done (Z.of_nat (length g), g).

(** [maze[ny][nx]] *)
Definition maze_get (nx ny : Z) : M bool := λ g,
  match py_get g ny with
  | None => Raise IndexError
  | Some row =>
      match py_get row nx with
      | None => Raise IndexError
      | Some b => Done (b, g)
      end
  end.

(** [maze[ny][nx] = b].  The rows of a maze built by [_generate_maze] are
    distinct list objects, so writing one row leaves the others alone. *)
Definition maze_set (nx ny : Z) (b : bool) : M unit := λ g,
  match py_index g ny with
  | None => Raise IndexError
  | Some j =>
      match g !! j with
      | None => Raise IndexError
      | Some row =>
          match py_index row nx with
          | None => Raise IndexError
          | Some i => Done (tt, <[j := <[i := b]> row]> g)
          end
      end
  end.

(** ** [_neighbors] *)

(** The literal [[(1,0),(-1,0),(0,1),(0,-1)]]. *)
Definition directions : list (Z * Z) := [(1, 0); (-1, 0); (0, 1); (0, -1)]%Z.

(** The [for dx, dy in ...] loop; [and] short-circuits, so [maze[ny][nx]]
    is read only for coordinates inside [0 .. n-1]. *)
Fixpoint neighbors_loop (x y n : Z) (ds : list (Z * Z)) (neigh : list Cell)
  : M (list Cell) :=
  match ds with
  | [] => mret neigh
  | (dx, dy) :: ds' =>
      let nx := (x + dx)%Z in
      let ny := (y + dy)%Z in
      if ((0 <=? nx) && (nx <? n) && ((0 <=? ny) && (ny <? n)))%Z
      then b ← maze_get nx ny;
           neighbors_loop x y n ds' (if b : bool then neigh ++ [(nx, ny)] else neigh)
      else neighbors_loop x y n ds' neigh
  end.

Definition _neighbors (node : Cell) : M (list Cell) :=
  let '(x, y) := node in
  n ← maze_len;
  neighbors_loop x y n directions [].

(** ** [_bfs_layers] *)

(** The locals [q], [visited] and [parent] of the search. *)
Record bfs_state : Type := BfsState {
  st_q : list Cell;
  st_visited : gset Cell;
  st_parent : ParentMap
}.

(** Body of [for nb in self._neighbors(node, maze)]. *)
Definition discover (node : Cell) (st : bfs_state) (nb : Cell) : bfs_state :=
  if decide (nb ∈ st_visited st) then st
  else {| st_q := st_q st ++ [nb];
          st_visited := {[nb]} ∪ st_visited st;
          st_parent := <[nb := Some node]> (st_parent st) |}.

(** How the [for _ in range(layer_size)] loop ends: by the [return] inside
    it, or by running to completion. *)
Inductive layer_exit : Type :=
  | GoalFound (layer : list Cell) (st : bfs_state)
  | LayerDone (layer : list Cell) (st : bfs_state).

Fixpoint bfs_for (goal : Cell) (layer_size : nat) (st : bfs_state)
    (layer : list Cell) : M layer_exit :=
  match layer_size with
  | O => mret (LayerDone layer st)
  | S k =>
      match st_q st with
      | [] => raise IndexError (* popleft from an empty deque *)
      | node :: q' =>
          let st1 := {| st_q := q'; st_visited := st_visited st;
                        st_parent := st_parent st |} in
          let layer1 := layer ++ [node] in
          if decide (node = goal) then mret (GoalFound layer1 st1)
          else nbs ← _neighbors node;
               bfs_for goal k (foldl (discover node) st1 nbs) layer1
      end
  end.

(** The [while q] loop; [fuel] bounds the number of times its test is
    evaluated. *)
Fixpoint bfs_while (fuel : nat) (goal : Cell) (st : bfs_state)
    (layers : list (list Cell)) : M (list (list Cell) * ParentMap) :=
  match fuel with
  | O => timeout
  | S fuel' =>
      match st_q st with
      | [] => mret (layers, st_parent st)
      | _ :: _ =>
          r ← bfs_for goal (length (st_q st)) st [];
          match r with
          | GoalFound layer st' => mret (layers ++ [layer], st_parent st')
          | LayerDone layer st' => bfs_while fuel' goal st' (layers ++ [layer])
          end
      end
  end.

Definition _bfs_layers (fuel : nat) (start goal : Cell)
  : M (list (list Cell) * ParentMap) :=
  n ← maze_len;
  bfs_while fuel goal
    {| st_q := [start]; st_visited := {[start]};
       st_parent := {[start := None]} |} [].

(** ** [_reconstruct_path] *)

(** The [while cur is not None] loop; [parent.get(cur, None)] is
    [mjoin (parent !! cur)]. *)
Fixpoint reconstruct_loop (fuel : nat) (parent : ParentMap) (cur : option Cell)
    (path : list Cell) : outcome (list Cell) :=
  match fuel with
  | O => Timeout
  | S fuel' =>
      match cur with
      | None => Done path
      | Some c =>
          reconstruct_loop fuel' parent (mjoin (parent !! c)) (path ++ [c])
      end
  end.

Definition _reconstruct_path (fuel : nat) (parent : ParentMap)
    (start goal : Cell) : outcome (list Cell) :=
  if decide (goal ∈ dom parent) then
    path ← reconstruct_loop fuel parent (Some goal) [];
    mret (reverse path)
  else Done [].

(** ** The pseudo-random source

    Python's [random] module is not part of the repository: its generator is
    an interface.  [rng_seed a] is the generator state after
    [random.seed(a)], [rng_random] is [random.random()] and [rng_randbelow n]
    is the draw [Random._randbelow(n)] behind [random.choice]. *)
Class Random (rng : Type) : Type := {
  rng_seed : Z → rng;
  rng_random : rng → float * rng;
  rng_randbelow : nat → rng → nat * rng
}.

(** [random.choice(seq)]: [seq[_randbelow(len(seq))]], [IndexError] on an
    empty sequence. *)
Definition choice `{Random rng} {A} (seq : list A) (r : rng) : outcome (A * rng) :=
  match seq with
  | [] => Raise IndexError
  | _ :: _ =>
      let '(i, r') := rng_randbelow (length seq) r in
      match seq !! i with
      | Some a => Done (a, r')
      | None => Raise IndexError
      end
  end.

(** ** [_generate_maze] *)

(** Inner comprehension [[random.random() > wall_prob for _ in range(n)]]. *)
Fixpoint generate_row `{Random rng} (wall_prob : float) (n : nat) (r : rng)
  : list bool * rng :=
  match n with
  | O => ([], r)
  | S k =>
      let '(u, r1) := rng_random r in
      let '(row, r2) := generate_row wall_prob k r1 in
      ((wall_prob <? u)%float :: row, r2)
  end.

(** Outer comprehension: [rows] rows of [n] cells each. *)
Fixpoint generate_rows `{Random rng} (wall_prob : float) (n rows : nat) (r : rng)
  : Grid * rng :=
  match rows with
  | O => ([], r)
  | S k =>
      let '(row, r1) := generate_row wall_prob n r in
      let '(maze, r2) := generate_rows wall_prob n k r1 in
      (row :: maze, r2)
  end.

(** [seed] is [None] when the caller passes no seed; the global generator is
    then used in the state it is in.  [range(n)] is empty for [n <= 0]. *)
Definition _generate_maze `{Random rng} (n : Z) (wall_prob : float)
    (seed : option Z) (r : rng) : Grid * rng :=
  let r0 := match seed with Some a => rng_seed a | None => r end in
  generate_rows wall_prob (Z.to_nat n) (Z.to_nat n) r0.

(** ** The random walker: [rw_updater] *)

(** The dictionary [rw_state]. *)
Record rw_state : Type := RwState {
  rw_pos : Cell;
  rw_last_move_time : float;
  rw_step_interval : float
}.

Definition lift {A} (o : outcome A) : M A := λ g,
  match o with
  | Done a => Done (a, g)
  | Raise e => Raise e
  | Timeout => Timeout
  end.

(** One call of the updater with frame time [dt]; [random_running] is the
    value of the tracker of that name.  The calls that move the dot, extend
    the trail and bump the step counter act on the renderer only. *)
Definition rw_updater `{Random rng} (random_running dt : float) (s : rw_state)
    (r : rng) : M (rw_state * rng) :=
  if (random_running <? 0.5)%float then mret (s, r)
  else
    let s1 := {| rw_pos := rw_pos s;
                 rw_last_move_time := (rw_last_move_time s + dt)%float;
                 rw_step_interval := rw_step_interval s |} in
    if (rw_last_move_time s1 <? rw_step_interval s1)%float then mret (s1, r)
    else
      let s2 := {| rw_pos := rw_pos s1;
                   rw_last_move_time := 0%float;
                   rw_step_interval := rw_step_interval s1 |} in
      neighbors ← _neighbors (rw_pos s2);
      match neighbors with
      | [] => mret (s2, r)
      | _ :: _ =>
          '(c, r') ← lift (choice neighbors r);
          mret ({| rw_pos := c;
                   rw_last_move_time := rw_last_move_time s2;
                   rw_step_interval := rw_step_interval s2 |}, r')
      end.

(** ** The computational part of [construct] *)

Definition GRID_SIZE : Z := 12.
(** The binary64 value of the literal [0.28]. *)
Definition WALL_PROB : float := 0x1.1eb851eb851ecp-2%float.
Definition SEED : Z := 42.

(** What [construct] does to the maze after generating it, on a maze of
    side [n]: force [start] and [goal] free, search, rebuild the path. *)
Definition solve_maze (fuel : nat) (n : Z)
  : M (list (list Cell) * ParentMap * list Cell) :=
  let start : Cell := (0, 0)%Z in
  let goal : Cell := (n - 1, n - 1)%Z in
  _ ← maze_set start.1 start.2 true;
  _ ← maze_set goal.1 goal.2 true;
  '(bfs_layers, parent) ← _bfs_layers fuel start goal;
  path ← lift (_reconstruct_path fuel parent start goal);
  mret (bfs_layers, parent, path).

Definition construct `{Random rng} (fuel : nat) (r : rng)
  : outcome (list (list Cell) * ParentMap * list Cell * Grid) * rng :=
  let r0 := rng_seed SEED in
  let '(maze, r1) := _generate_maze GRID_SIZE WALL_PROB (Some SEED) r0 in
  (solve_maze fuel GRID_SIZE maze, r1).

(** * Specification vocabulary *)

(** The grids of the data model: [n] rows of [n] cells. *)
Definition square (g : Grid) : Prop :=
  Forall (λ row : list bool, length row = length g) g.

Definition in_bounds (g : Grid) (c : Cell) : Prop :=
  (0 ≤ c.1 < Z.of_nat (length g))%Z ∧ (0 ≤ c.2 < Z.of_nat (length g))%Z.

(** A passable cell lies inside the grid and holds [True]. *)
Definition passable (g : Grid) (c : Cell) : Prop :=
  in_bounds g c ∧ py_get g c.2 ≫= (λ row, py_get row c.1) = Some true.

(** One step right, left, down or up. *)
Definition adjacent (u v : Cell) : Prop :=
  (Z.abs (v.1 - u.1) + Z.abs (v.2 - u.2) = 1)%Z.

#[global] Instance in_bounds_dec g c : Decision (in_bounds g c).
Proof. unfold in_bounds. apply _. Defined.
#[global] Instance passable_dec g c : Decision (passable g c).
Proof. unfold passable. apply _. Defined.
#[global] Instance adjacent_dec u v : Decision (adjacent u v).
Proof. unfold adjacent. apply _. Defined.

(** The open neighbours of a cell, in the order [_neighbors] checks them. *)
Definition open_nbrs (g : Grid) (u : Cell) : list Cell :=
  filter (passable g) (map (λ d : Z * Z, (u.1 + d.1, u.2 + d.2)%Z) directions).

(** ** Paths in the grid *)

(** Every consecutive pair of [p] is a legal move: one 4-directional step
    between two passable cells. *)
Definition legal_moves (g : Grid) (p : list Cell) : Prop :=
  ∀ i u v, p !! i = Some u → p !! S i = Some v →
           adjacent u v ∧ passable g u ∧ passable g v.

Definition path_from_to (g : Grid) (s t : Cell) (p : list Cell) : Prop :=
  head p = Some s ∧ last p = Some t ∧ legal_moves g p.

(** [k] is the number of edges of a shortest path from [s] to [t]. *)
Definition shortest_path_length (g : Grid) (s t : Cell) (k : nat) : Prop :=
  (∃ p, path_from_to g s t p ∧ length p = S k) ∧
  (∀ p, path_from_to g s t p → S k ≤ length p).

Definition reachable (g : Grid) (s t : Cell) : Prop :=
  ∃ p, path_from_to g s t p.

(** [walk g s v k]: [v] is reached from [s] by [k] moves, each to an open
    neighbour of the previous cell. *)
Inductive walk (g : Grid) (s : Cell) : Cell → nat → Prop :=
  | walk_O : walk g s s 0
  | walk_S u v k : walk g s u k → v ∈ open_nbrs g u → walk g s v (S k).

(** [v] is at distance exactly [k] from [s]. *)
Definition dist (g : Grid) (s v : Cell) (k : nat) : Prop :=
  walk g s v k ∧ ∀ j, walk g s v j → k ≤ j.

(** ** The search as a sequence of configurations

    A configuration splits the queue of [_bfs_layers] the way the nested
    loops see it: [c_done] is the local [layer] (cells of the current layer
    already dequeued), [c_rest] the cells of the current layer still in the
    queue, [c_new] the cells appended behind them, so that
    [q = c_rest ++ c_new]. *)
Record config : Type := Config {
  c_layers : list (list Cell);
  c_done : list Cell;
  c_rest : list Cell;
  c_new : list Cell;
  c_visited : gset Cell;
  c_parent : ParentMap
}.

(** The neighbours the inner loop appends for one node: those not yet
    visited, each once. *)
Fixpoint fresh (vis : gset Cell) (nbs : list Cell) : list Cell :=
  match nbs with
  | [] => []
  | nb :: nbs' =>
      if decide (nb ∈ vis) then fresh vis nbs'
      else nb :: fresh ({[nb]} ∪ vis) nbs'
  end.

Definition set_parents (u : Cell) (par : ParentMap) (vs : list Cell) : ParentMap :=
  foldl (λ m v, <[v := Some u]> m) par vs.

Section SearchModel.
Context (g : Grid) (s goal : Cell).

(** One step of a run: a cell other than the goal is dequeued and its
    neighbours are examined, or the [for] loop completes a layer. *)
Inductive bfs_step : config → config → Prop :=
  | step_expand L done u rest new vis par :
      u ≠ goal →
      bfs_step (Config L done (u :: rest) new vis par)
               (Config L (done ++ [u]) rest
                  (new ++ fresh vis (open_nbrs g u))
                  (list_to_set (fresh vis (open_nbrs g u)) ∪ vis)
                  (set_parents u par (fresh vis (open_nbrs g u))))
  | step_next L done new vis par :
      done ≠ [] →
      bfs_step (Config L done [] new vis par)
               (Config (L ++ [done]) [] new [] vis par).

(** The configurations a run goes through. *)
Inductive Reach : config → Prop :=
  | Reach_init :
      Reach (Config [] [] [s] [] {[s]} {[s := None]})
  | Reach_step c c' : Reach c → bfs_step c c' → Reach c'.

(** ** Invariant of the configurations *)

(** Cells met so far, in the order they entered the queue. *)
Definition seen (c : config) : list Cell :=
  concat (c_layers c) ++ c_done c ++ c_rest c ++ c_new c.

(** Cells dequeued so far, in the order they left the queue. *)
Definition expanded (c : config) : list Cell :=
  concat (c_layers c) ++ c_done c.

Record Inv (c : config) : Prop := {
  inv_queue : ∀ v, v ∈ c_done c ++ c_rest c ↔ dist g s v (length (c_layers c));
  inv_layers : ∀ i Li v, c_layers c !! i = Some Li → v ∈ Li ↔ dist g s v i;
  inv_new : ∀ v, v ∈ c_new c → dist g s v (S (length (c_layers c)));
  inv_visited : ∀ v, v ∈ c_visited c ↔ v ∈ seen c;
  inv_nodup : NoDup (seen c);
  inv_expanded : ∀ u v, u ∈ expanded c → v ∈ open_nbrs g u → v ∈ c_visited c;
  inv_goal : goal ∉ expanded c;
  inv_dom : ∀ v, is_Some (c_parent c !! v) ↔ v ∈ c_visited c;
  inv_root : ∀ v, c_parent c !! v = Some None ↔ v = s;
  inv_parent : ∀ v u, c_parent c !! v = Some (Some u) →
    (∃ l1 l2, expanded c = l1 ++ u :: l2 ∧ ∀ w, w ∈ l1 → v ∉ open_nbrs g w) ∧
    v ∈ open_nbrs g u ∧
    ∃ j, dist g s u j ∧ dist g s v (S j);
  inv_nonempty : Forall (λ Li : list Cell, Li ≠ []) (c_layers c)
}.

(** All cells inside the grid. *)
Definition all_cells : list Cell :=
  list_prod (seqZ 0 (Z.of_nat (length g))) (seqZ 0 (Z.of_nat (length g))).

(** How a run ends: the queue ran empty at the loop test, or the goal
    was dequeued. *)
Inductive bfs_final (layers : list (list Cell)) (parent : ParentMap) : Prop :=
  | final_exhausted vis :
      Reach (Config layers [] [] [] vis parent) →
      bfs_final layers parent
  | final_found L done post new vis :
      Reach (Config L done (goal :: post) new vis parent) →
      layers = L ++ [done ++ [goal]] →
      bfs_final layers parent.

End SearchModel.

(** ** Following the parent pointers *)

(** [chain par s v p]: [p] lists the cells from [s] to [v], each the parent
    of the next, and [s] is the cell whose parent is [None]. *)
Inductive chain (par : ParentMap) (s : Cell) : Cell → list Cell → Prop :=
  | chain_root : par !! s = Some None → chain par s s [s]
  | chain_step u v p :
      chain par s u p → par !! v = Some (Some u) → chain par s v (p ++ [v]).

(** ** Concrete data for the examples *)

(** The 3×3 grid without walls. *)
Definition maze3 : Grid :=
  [[true; true; true]; [true; true; true]; [true; true; true]].

(** What the search returns on [maze3] from [(0, 0)] to [(2, 2)]. *)
Definition maze3_layers : list (list Cell) :=
  [[(0, 0)]; [(1, 0); (0, 1)]; [(2, 0); (1, 1); (0, 2)];
   [(2, 1); (1, 2)]; [(2, 2)]]%Z.

Definition maze3_parent : ParentMap :=
  list_to_map
    [((0, 0), None); ((1, 0), Some (0, 0)); ((0, 1), Some (0, 0));
     ((2, 0), Some (1, 0)); ((1, 1), Some (1, 0)); ((0, 2), Some (0, 1));
     ((2, 1), Some (2, 0)); ((1, 2), Some (1, 1)); ((2, 2), Some (2, 1))]%Z.

(** What the search returns on [maze3] from [(0, 0)] to the centre. *)
Definition maze3_center_layers : list (list Cell) :=
  [[(0, 0)]; [(1, 0); (0, 1)]; [(2, 0); (1, 1)]]%Z.

Definition maze3_center_parent : ParentMap :=
  list_to_map
    [((0, 0), None); ((1, 0), Some (0, 0)); ((0, 1), Some (0, 0));
     ((2, 0), Some (1, 0)); ((1, 1), Some (1, 0)); ((0, 2), Some (0, 1));
     ((2, 1), Some (2, 0))]%Z.

(** A 2×2 grid whose cell [(0, 0)] is a wall. *)
Definition maze_wall : Grid := [[false; true]; [true; true]].

(** A stand-in generator whose state is a counter: [random()] alternates
    between [0.25] and [0.75], [_randbelow(n)] is the counter modulo [n]. *)
#[global] Instance counter_rng : Random nat := {|
  rng_seed a := Z.to_nat a;
  rng_random r := (if Nat.even r then 0.25%float else 0.75%float, S r);
  rng_randbelow n r := (r mod n, S r)
|}.

(** * The drawn grid and the playback of the search

    What [construct] hands to the renderer, as far as this file decides it:
    which squares are built in which order and with which fill, which
    square a cell is looked up as, and which squares each step of the
    playback touches.  Positions on screen, colours in between, easing and
    timing are the renderer's business and stay out. *)

(** The two fills [_build_grid] chooses between. *)
Inductive fill_color : Type := GREY_B | WHITE.

(** The [Square] built in the iteration [(i, j)] of [_build_grid]:
    [sq_col] and [sq_row] stand for the point it is moved to,
    [((i - (n-1)/2) * CELL_SIZE, ((n-1)/2 - j) * CELL_SIZE, 0)]. *)
Record Square : Type := MkSquare {
  sq_col : Z;
  sq_row : Z;
  sq_fill : fill_color
}.

(** The [VGroup(shadow, sq)] with its attribute [square]; the shadow is a
    copy of the square that only the renderer sees. *)
Record Group : Type := MkGroup { grp_square : Square }.

(** A dictionary subscript [d[k]]: the item, or [KeyError]. *)
Inductive keyed (A : Type) : Type :=
  | Item (a : A)
  | KeyError (k : Cell).
Arguments Item {A} a.
Arguments KeyError {A} k.

(** ** [_build_grid] *)

(** Inner loop [for i in range(n)] of row [j]. *)
Fixpoint build_grid_row (j : nat) (cols : list nat) (squares : list Group)
  : M (list Group) :=
  match cols with
  | [] => mret squares
  | i :: cols' =>
      free ← maze_get (Z.of_nat i) (Z.of_nat j);
      let sq := MkSquare (Z.of_nat i) (Z.of_nat j)
                  (if free : bool then WHITE else GREY_B) in
      build_grid_row j cols' (squares ++ [MkGroup sq])
  end.

(** Outer loop [for j in range(n)]. *)
Fixpoint build_grid_rows (n : nat) (rows : list nat) (squares : list Group)
  : M (list Group) :=
  match rows with
  | [] => mret squares
  | j :: rows' =>
      squares1 ← build_grid_row j (seq 0 n) squares;
      build_grid_rows n rows' squares1
  end.

(** The container [VGroup(squares, title)] as the pair of its two members. *)
Definition _build_grid {L} (label : L) : M (list Group * L) :=
  n ← maze_len;
  squares ← build_grid_rows (Z.to_nat n) (seq 0 (Z.to_nat n)) [];
  mret (squares, label).

(** ** [_square_dict] and [_grid_centers] *)

(** [int(math.sqrt(m))] for a length [m]: the integer square root (the
    double-precision root of an integer below 2^52 truncates to it). *)
Definition int_sqrt (m : nat) : nat := Nat.sqrt m.

(** The two functions run the same pair of loops and differ in what they
    store, [grp.square] or [grp.square.get_center()]: [f] is that part.
    [squares_vg[index]] raises [IndexError] past the end. *)
Fixpoint index_row {A B} (f : A → B) (squares_vg : list A) (j : nat)
    (cols : list nat) (d : gmap Cell B) (index : nat)
  : outcome (gmap Cell B * nat) :=
  match cols with
  | [] => Done (d, index)
  | i :: cols' =>
      match squares_vg !! index with
      | None => Raise IndexError
      | Some grp =>
          index_row f squares_vg j cols'
            (<[(Z.of_nat i, Z.of_nat j) := f grp]> d) (S index)
      end
  end.

Fixpoint index_rows {A B} (f : A → B) (squares_vg : list A) (n : nat)
    (rows : list nat) (d : gmap Cell B) (index : nat)
  : outcome (gmap Cell B * nat) :=
  match rows with
  | [] => Done (d, index)
  | j :: rows' =>
      '(d1, index1) ← index_row f squares_vg j (seq 0 n) d index;
      index_rows f squares_vg n rows' d1 index1
  end.

Definition _square_dict {L} (grid_vgroup : list Group * L)
  : outcome (gmap Cell Square) :=
  let squares_vg := grid_vgroup.1 in
  let n := int_sqrt (length squares_vg) in
  '(d, _) ← index_rows grp_square squares_vg n (seq 0 n) ∅ 0;
  mret d.

(** [get_center] is the renderer's [Mobject.get_center]. *)
Definition _grid_centers {L P} (get_center : Square → P)
    (grid_vgroup : list Group * L) : outcome (gmap Cell P) :=
  let squares_vg := grid_vgroup.1 in
  let n := int_sqrt (length squares_vg) in
  '(centers, _) ← index_rows (λ grp, get_center (grp_square grp))
                    squares_vg n (seq 0 n) ∅ 0;
  mret centers.

(** ** [_place_marker] *)

(** The point the marker dot is created at, [centers[coord]]. *)
Definition _place_marker {L P} (get_center : Square → P)
    (grid_vgroup : list Group * L) (coord : Cell) : outcome (keyed P) :=
  centers ← _grid_centers get_center grid_vgroup;
  match centers !! coord with
  | None => mret (KeyError coord)
  | Some c => mret (Item c)
  end.

(** ** [_animate_queue_push] *)

Inductive queue_anim : Type :=
  | FadeIn (slot : nat)
  | FadeOut (slot : nat).

(** The animations of one call: a fade in and a fade out for each of the
    [min(6, count)] small squares, the [i]-th placed at slot [i]. *)
Definition _animate_queue_push (count : nat) : list queue_anim :=
  flat_map (λ i, [FadeIn i; FadeOut i]) (seq 0 (6 `min` count)).

(** ** The playback loop of [construct] *)

(** [sq.animate.set_fill(interpolate_color(YELLOW, ORANGE, num / den), ...)] *)
Record fill_anim : Type := FillAnim {
  fa_square : Square;
  fa_num : nat;
  fa_den : nat
}.

(** What the scene is asked to play. *)
Inductive play : Type :=
  | PlayFill (anims : list fill_anim)
  | PlayQueue (anims : list queue_anim)
  | PlayFlash (goal_sq : Square)
  | PlayPath (squares : list Square)
  | PlayShimmer (squares : list Square).

(** The trackers the loop updates and the plays issued so far. *)
Record scene : Type := Scene {
  sc_played : list play;
  sc_bfs_steps : nat;
  sc_bfs_counter : nat;
  sc_random_running : float
}.

(** [for node in layer]: one fill animation per cell of the layer. *)
Fixpoint layer_anims (right_squares : gmap Cell Square) (num den : nat)
    (layer : list Cell) (anims : list fill_anim) : keyed (list fill_anim) :=
  match layer with
  | [] => Item anims
  | node :: layer' =>
      match right_squares !! node with
      | None => KeyError node
      | Some sq =>
          layer_anims right_squares num den layer' (anims ++ [FillAnim sq num den])
      end
  end.

(** [for layer_index, layer in enumerate(bfs_layers)], with its [break];
    [nlayers] is [len(bfs_layers)]. *)
Fixpoint play_layers (right_squares : gmap Cell Square) (goal : Cell)
    (nlayers layer_index : nat) (layers : list (list Cell)) (sc : scene)
  : keyed scene :=
  match layers with
  | [] => Item sc
  | layer :: layers' =>
      let den := match nlayers with O => 1 | S _ => nlayers end in
      match layer_anims right_squares layer_index den layer [] with
      | KeyError k => KeyError k
      | Item anims =>
          let sc1 :=
            {| sc_played := sc_played sc
                            ++ [PlayFill anims;
                                PlayQueue (_animate_queue_push (length layer))];
               sc_bfs_steps := S (sc_bfs_steps sc);
               sc_bfs_counter := S (sc_bfs_steps sc);
               sc_random_running := sc_random_running sc |} in
          if decide (goal ∈ layer) then
            match right_squares !! goal with
            | None => KeyError goal
            | Some goal_sq =>
                Item {| sc_played := sc_played sc1 ++ [PlayFlash goal_sq];
                        sc_bfs_steps := sc_bfs_steps sc1;
                        sc_bfs_counter := sc_bfs_counter sc1;
                        sc_random_running := 0%float |}
            end
          else play_layers right_squares goal nlayers (S layer_index) layers' sc1
      end
  end.

(** [right_squares[p] for p in path], as the path highlight and the shimmer
    both do. *)
Fixpoint path_squares (right_squares : gmap Cell Square) (path : list Cell)
    (squares : list Square) : keyed (list Square) :=
  match path with
  | [] => Item squares
  | p :: path' =>
      match right_squares !! p with
      | None => KeyError p
      | Some sq => path_squares right_squares path' (squares ++ [sq])
      end
  end.

(** The playback from the wavefront to the shimmer: the layers, the path
    rebuilt from the parent map, its highlight, its shimmer.  The plays in
    between (camera, captions, fading out the left grid) touch no square of
    the right grid and are left out. *)
Definition play_search (fuel : nat) (right_squares : gmap Cell Square)
    (bfs_layers : list (list Cell)) (parent : ParentMap) (start goal : Cell)
    (sc : scene) : outcome (keyed (scene * list Cell)) :=
  match play_layers right_squares goal (length bfs_layers) 0 bfs_layers sc with
  | KeyError k => Done (KeyError k)
  | Item sc1 =>
      path ← _reconstruct_path fuel parent start goal;
      match path_squares right_squares path [] with
      | KeyError k => Done (KeyError k)
      | Item highlighted =>
          match path_squares right_squares path [] with
          | KeyError k => Done (KeyError k)
          | Item shimmer =>
              Done (Item ({| sc_played := sc_played sc1
                                          ++ [PlayPath highlighted;
                                              PlayShimmer shimmer];
                             sc_bfs_steps := sc_bfs_steps sc1;
                             sc_bfs_counter := sc_bfs_counter sc1;
                             sc_random_running := sc_random_running sc1 |},
                          path))
          end
      end
  end.

(** ** The updater over the frames of a play *)

(** The renderer calls the updater once per frame; a frame carries the
    value of [random_running] at that moment and the frame time [dt]. *)
Fixpoint rw_frames `{Random rng} (frames : list (float * float)) (s : rw_state)
    (r : rng) : M (rw_state * rng) :=
  match frames with
  | [] => mret (s, r)
  | (random_running, dt) :: frames' =>
      '(s', r') ← rw_updater random_running dt s r;
      rw_frames frames' s' r'
  end.

(** ** The stream of draws behind a generated maze *)

(** The generator after [k] calls of [random.random()]. *)
Fixpoint rng_skip `{Random rng} (k : nat) (r : rng) : rng :=
  match k with
  | O => r
  | S k' => rng_skip k' (rng_random r).2
  end.

(** The value of the [k]-th call of [random.random()], counting from 0. *)
Definition nth_draw `{Random rng} (k : nat) (r : rng) : float :=
  (rng_random (rng_skip k r)).1.

(** ** Vocabulary for the properties of the drawn grid *)

(** [c] lies within the bounds [_neighbors] checks but its row ends before
    it: reading [maze[c.2][c.1]] raises [IndexError]. *)
Definition short_row (g : Grid) (c : Cell) : Prop :=
  in_bounds g c ∧ py_get g c.2 ≫= (λ row, py_get row c.1) = None.

#[global] Instance short_row_dec g c : Decision (short_row g c).
Proof. unfold short_row. apply _. Defined.

(** The square drawn for cell [c] of maze [g]. *)
Definition square_of (g : Grid) (c : Cell) : Square :=
  MkSquare c.1 c.2 (if decide (passable g c) then WHITE else GREY_B).

(** The group built for column [i] of row [j]. *)
Definition group_at (g : Grid) (j i : nat) : Group :=
  MkGroup (square_of g (Z.of_nat i, Z.of_nat j)).

(** [d] maps exactly the cells inside [g], each to its square. *)
Definition grid_dict (g : Grid) (d : gmap Cell Square) : Prop :=
  ∀ c, d !! c = if decide (in_bounds g c) then Some (square_of g c) else None.

(** A square that stands for a passable cell and is drawn free. *)
Definition free_square (g : Grid) (sq : Square) : Prop :=
  sq_fill sq = WHITE ∧ passable g (sq_col sq, sq_row sq).

(** A play that touches free squares only, with a colour parameter
    [num / den] in [0, 1) and between one and six queue squares. *)
Definition play_ok (g : Grid) (p : play) : Prop :=
  match p with
  | PlayFill anims =>
      anims ≠ [] ∧
      Forall (λ a, free_square g (fa_square a) ∧ fa_num a < fa_den a) anims
  | PlayQueue anims => 2 ≤ length anims ≤ 12
  | PlayFlash sq => free_square g sq
  | PlayPath sqs => Forall (free_square g) sqs
  | PlayShimmer sqs => Forall (free_square g) sqs
  end.

(** * Lemmas *)

Section Neighbors.
Context (g : Grid).

Lemma py_get_nonneg {A} (l : list A) (i : Z) :
  (0 ≤ i)%Z → py_get l i = l !! Z.to_nat i.
Proof.
  intros Hi. unfold py_get, py_index.
  destruct (Z.leb_spec 0 i); [|lia].
  destruct (Z.ltb_spec i (Z.of_nat (length l))); simpl; [done|].
  symmetry. apply lookup_ge_None. lia.
Qed.

Lemma square_get c :
  square g → in_bounds g c →
  ∃ b, py_get g c.2 ≫= (λ row, py_get row c.1) = Some b.
Proof.
  intros Hsq [Hx Hy].
  rewrite py_get_nonneg by lia.
  destruct (lookup_lt_is_Some_2 g (Z.to_nat c.2)) as [row Hrow]; [lia|].
  rewrite Hrow. simpl. rewrite py_get_nonneg by lia.
  assert (Hlen : length row = length g).
  { eapply (proj1 (Forall_forall _ _) Hsq), list_elem_of_lookup_2, Hrow. }
  destruct (lookup_lt_is_Some_2 row (Z.to_nat c.1)) as [b Hb]; [lia|].
  eauto.
Qed.

Lemma maze_get_square x y :
  square g → in_bounds g (x, y) →
  maze_get x y g = Done (bool_decide (passable g (x, y)), g).
Proof.
  intros Hsq Hin. destruct (square_get (x, y) Hsq Hin) as [b Hb].
  unfold maze_get. simpl in Hb.
  destruct (py_get g y) as [row|] eqn:Hrow; [|done]. simpl in Hb.
  rewrite Hb. do 2 f_equal.
  destruct b.
  - symmetry. apply bool_decide_eq_true. split; [done|]. simpl.
    by rewrite Hrow.
  - symmetry. apply bool_decide_eq_false. intros [_ H]. simpl in H.
    rewrite Hrow in H. simpl in H. congruence.
Qed.

Lemma neighbors_loop_square x y ds neigh :
  square g →
  neighbors_loop x y (Z.of_nat (length g)) ds neigh g =
  Done (neigh ++ filter (passable g)
                   (map (λ d : Z * Z, (x + d.1, y + d.2)%Z) ds), g).
Proof.
  intros Hsq. revert neigh. induction ds as [|[dx dy] ds IH]; intros neigh.
  - simpl. unfold mret, M_ret. by rewrite app_nil_r.
  - cbn [neighbors_loop map fst snd].
    destruct (decide (in_bounds g (x + dx, y + dy)%Z)) as [Hin|Hout].
    + assert (((0 <=? x + dx) && (x + dx <? Z.of_nat (length g))
               && ((0 <=? y + dy) && (y + dy <? Z.of_nat (length g))))%Z = true)
        as ->.
      { destruct Hin as [? ?]; simpl in *.
        repeat (apply andb_true_intro; split); lia. }
      unfold mbind, M_bind. rewrite maze_get_square by done.
      rewrite IH. rewrite filter_cons.
      destruct (decide (passable g (x + dx, y + dy)%Z)) as [Hp|Hp].
      * rewrite bool_decide_eq_true_2 by done. by rewrite <- app_assoc.
      * by rewrite bool_decide_eq_false_2 by done.
    + assert (((0 <=? x + dx) && (x + dx <? Z.of_nat (length g))
               && ((0 <=? y + dy) && (y + dy <? Z.of_nat (length g))))%Z = false)
        as ->.
      { apply not_true_is_false. intros H. apply Hout.
        unfold in_bounds; simpl.
        repeat match goal with
               | H : (_ && _) = true |- _ => apply andb_prop in H; destruct H
               end. lia. }
      rewrite IH. rewrite filter_cons.
      destruct (decide (passable g (x + dx, y + dy)%Z)) as [[Hp _]|Hp]; done.
Qed.

(** On a square grid [_neighbors] never raises and returns the open
    neighbours. *)
Lemma neighbors_square node :
  square g → _neighbors node g = Done (open_nbrs g node, g).
Proof.
  intros Hsq. destruct node as [x y]. unfold _neighbors, open_nbrs.
  unfold mbind, M_bind, maze_len. by rewrite neighbors_loop_square.
Qed.

Lemma elem_of_open_nbrs u v :
  v ∈ open_nbrs g u ↔ adjacent u v ∧ passable g v.
Proof.
  unfold open_nbrs. rewrite list_elem_of_filter.
  destruct u as [x y], v as [a b]. unfold adjacent, directions. simpl.
  rewrite !elem_of_cons, elem_of_nil.
  split.
  - intros [Hp H]. split; [|done].
    destruct H as [H|[H|[H|[H|[]]]]]; injection H as -> ->; lia.
  - intros [Hadj Hp]. split; [done|].
    assert ((a = x + 1 ∧ b = y + 0) ∨ (a = x + -1 ∧ b = y + 0)
            ∨ (a = x + 0 ∧ b = y + 1) ∨ (a = x + 0 ∧ b = y + -1))%Z
      as [[-> ->]|[[-> ->]|[[-> ->]|[-> ->]]]] by lia; tauto.
Qed.

Lemma NoDup_open_nbrs u : NoDup (open_nbrs g u).
Proof.
  unfold open_nbrs. apply NoDup_filter. destruct u as [x y].
  unfold directions. simpl.
  repeat (apply NoDup_cons; split;
          [rewrite ?elem_of_cons, elem_of_nil;
           intros H; repeat destruct H as [H|H]; try done;
           injection H; lia|]).
  apply NoDup_nil_2.
Qed.
End Neighbors.

Section Walks.
Context (g : Grid) (s : Cell).

Lemma walk_O_inv v : walk g s v 0 → v = s.
Proof. by inversion 1. Qed.

Lemma walk_S_inv v k :
  walk g s v (S k) → ∃ u, walk g s u k ∧ v ∈ open_nbrs g u.
Proof. inversion 1; eauto. Qed.

Lemma dist_inj v j k : dist g s v j → dist g s v k → j = k.
Proof.
  intros [Hj Hjmin] [Hk Hkmin].
  apply Nat.le_antisymm; auto.
Qed.

Lemma dist_O : dist g s s 0.
Proof. split; [constructor | lia]. Qed.

Lemma dist_O_inv v : dist g s v 0 → v = s.
Proof. intros [H _]. by apply walk_O_inv. Qed.

Lemma walk_passable v k : passable g s → walk g s v k → passable g v.
Proof.
  intros Hs. destruct 1 as [|u v k _ Hv]; [done|].
  by apply elem_of_open_nbrs in Hv as [_ ?].
Qed.

Lemma walk_cell v k : walk g s v k → v = s ∨ passable g v.
Proof.
  destruct 1 as [|u v k _ Hv]; [by left|right].
  by apply elem_of_open_nbrs in Hv as [_ ?].
Qed.

Lemma legal_moves_snoc p u v :
  legal_moves g (p ++ [u]) → adjacent u v → passable g u → passable g v →
  legal_moves g ((p ++ [u]) ++ [v]).
Proof.
  intros Hp Hadj Hu Hv i a b Ha Hb.
  destruct (decide (S i < length (p ++ [u]))) as [Hlt|Hge].
  - rewrite lookup_app_l in Ha by lia. rewrite lookup_app_l in Hb by lia.
    eauto.
  - assert (Hb' := lookup_lt_Some _ _ _ Hb).
    rewrite !length_app in *. simpl in *.
    assert (i = length p) as -> by lia.
    rewrite lookup_app_l in Ha by (rewrite length_app; simpl; lia).
    rewrite lookup_app_r in Ha by lia.
    rewrite lookup_app_r in Hb by (rewrite length_app; simpl; lia).
    rewrite length_app in Hb. simpl in Hb.
    replace (length p - length p) with 0 in Ha by lia.
    replace (S (length p) - (length p + 1)) with 0 in Hb by lia.
    simpl in *. by simplify_eq.
Qed.

(** A walk from a passable start is a path with as many edges. *)
Lemma walk_path v k :
  passable g s → walk g s v k →
  ∃ p, path_from_to g s v p ∧ length p = S k.
Proof.
  intros Hs. induction 1 as [|u v k Hw IH Hv].
  - exists [s]. by repeat split.
  - destruct IH as (p & (Hhd & Hlast & Hmoves) & Hlen).
    apply last_Some in Hlast as [p' ->].
    exists ((p' ++ [u]) ++ [v]).
    apply elem_of_open_nbrs in Hv as [Hadj Hpv].
    split; [|rewrite length_app; simpl; lia].
    split; [|split].
    + destruct p'; done.
    + by rewrite last_snoc.
    + apply legal_moves_snoc; eauto using walk_passable.
Qed.

(** A path is a walk with as many moves as it has edges. *)
Lemma path_walk p v :
  path_from_to g s v p → ∃ k, length p = S k ∧ walk g s v k.
Proof.
  revert v. induction p as [|u p IH] using rev_ind; intros v (Hhd & Hlast & Hm).
  - done.
  - rewrite last_snoc in Hlast. simplify_eq.
    destruct p as [|a p'] using rev_ind.
    + simpl in Hhd. simplify_eq. exists 0. split; [done|constructor].
    + clear IHp'.
      destruct (IH a) as (k & Hlen & Hw).
      { split; [|split].
        - by destruct p'.
        - by rewrite last_snoc.
        - intros i x y Hx Hy. apply (Hm i).
          + rewrite lookup_app_l; [done|]. by eapply lookup_lt_Some.
          + rewrite lookup_app_l; [done|]. by eapply lookup_lt_Some. }
      exists (S k). split; [rewrite length_app; simpl; lia|].
      econstructor; [done|].
      apply elem_of_open_nbrs.
      destruct (Hm (length p') a v) as (? & ? & ?); [| |done].
      * rewrite lookup_app_l by (rewrite length_app; simpl; lia).
        rewrite lookup_app_r by lia.
        by replace (length p' - length p') with 0 by lia.
      * rewrite lookup_app_r by (rewrite length_app; simpl; lia).
        rewrite length_app. simpl.
        by replace (S (length p') - (length p' + 1)) with 0 by lia.
Qed.

Lemma reachable_walk v : reachable g s v → ∃ k, walk g s v k.
Proof. intros [p Hp]. destruct (path_walk p v Hp) as (k & _ & ?). eauto. Qed.

Lemma walk_reachable v k : passable g s → walk g s v k → reachable g s v.
Proof.
  intros Hs Hw. destruct (walk_path v k Hs Hw) as (p & ? & _). by exists p.
Qed.

(** With a passable start, distance by walks is the shortest path length. *)
Lemma dist_shortest v k :
  passable g s → dist g s v k → shortest_path_length g s v k.
Proof.
  intros Hs [Hw Hmin]. split; [by apply walk_path|].
  intros p Hp. destruct (path_walk p v Hp) as (j & -> & Hj).
  apply Hmin in Hj. lia.
Qed.

Lemma shortest_dist v k : shortest_path_length g s v k → dist g s v k.
Proof.
  intros [(p & Hp & Hlen) Hmin].
  destruct (path_walk p v Hp) as (j & Hj & Hw).
  assert (j = k) as -> by lia. split; [done|].
  intros i Hi. destruct p as [|a [|b p']]; [done|simpl in Hlen; lia|].
  (* the path has a first move, so the start is passable *)
  destruct Hp as (Hhd & Hlast & Hm). simpl in Hhd. simplify_eq.
  destruct (Hm 0 s b) as (_ & Hs & _); [done..|].
  destruct (walk_path v i Hs Hi) as (q & Hq & Hqlen).
  apply Hmin in Hq. lia.
Qed.
End Walks.

Lemma foldl_discover u st nbs :
  foldl (discover u) st nbs =
  {| st_q := st_q st ++ fresh (st_visited st) nbs;
     st_visited := list_to_set (fresh (st_visited st) nbs) ∪ st_visited st;
     st_parent := set_parents u (st_parent st) (fresh (st_visited st) nbs) |}.
Proof.
  revert st. induction nbs as [|nb nbs IH]; intros [q vis par]; simpl.
  - rewrite app_nil_r. f_equal. set_solver.
  - unfold discover at 2. simpl. destruct (decide (nb ∈ vis)).
    + by rewrite IH.
    + rewrite IH. simpl. rewrite <- app_assoc. f_equal. set_solver.
Qed.

Lemma elem_of_fresh vis nbs v : v ∈ fresh vis nbs ↔ v ∈ nbs ∧ v ∉ vis.
Proof.
  revert vis. induction nbs as [|nb nbs IH]; intros vis; simpl.
  - set_solver.
  - destruct (decide (nb ∈ vis)).
    + rewrite IH. set_solver.
    + rewrite elem_of_cons, IH. split.
      * intros [->|[? ?]]; set_solver.
      * intros [[->|?]%elem_of_cons ?]; [by left|].
        destruct (decide (v = nb)) as [->|]; [by left|right]. set_solver.
Qed.

Lemma NoDup_fresh vis nbs : NoDup (fresh vis nbs).
Proof.
  revert vis. induction nbs as [|nb nbs IH]; intros vis; simpl.
  - constructor.
  - destruct (decide (nb ∈ vis)); [done|].
    constructor; [|done]. rewrite elem_of_fresh. set_solver.
Qed.

Lemma lookup_set_parents u par vs v :
  set_parents u par vs !! v = if decide (v ∈ vs) then Some (Some u) else par !! v.
Proof.
  unfold set_parents. revert par.
  induction vs as [|a vs IH]; intros par; cbn [foldl].
  - by rewrite decide_False by set_solver.
  - rewrite IH. destruct (decide (v ∈ vs)).
    + by rewrite decide_True by set_solver.
    + destruct (decide (v = a)) as [->|].
      * rewrite decide_True by set_solver. by rewrite lookup_insert_eq.
      * rewrite decide_False by set_solver. by rewrite lookup_insert_ne.
Qed.

Lemma elem_of_concat {A} (x : A) (ls : list (list A)) :
  x ∈ concat ls ↔ ∃ l, x ∈ l ∧ l ∈ ls.
Proof.
  rewrite list_elem_of_In, in_concat. split.
  - intros (l & ? & ?). exists l. by rewrite !list_elem_of_In.
  - intros (l & ? & ?). exists l. by rewrite <- !list_elem_of_In.
Qed.

Section Search.
Context (g : Grid) (s goal : Cell).

Lemma Reach_expand L done u rest new vis par :
  Reach g s goal (Config L done (u :: rest) new vis par) →
  u ≠ goal →
  Reach g s goal (Config L (done ++ [u]) rest
           (new ++ fresh vis (open_nbrs g u))
           (list_to_set (fresh vis (open_nbrs g u)) ∪ vis)
           (set_parents u par (fresh vis (open_nbrs g u)))).
Proof. intros HR Hne. eapply Reach_step; [done|by constructor]. Qed.

Lemma Reach_next L done new vis par :
  Reach g s goal (Config L done [] new vis par) →
  done ≠ [] →
  Reach g s goal (Config (L ++ [done]) [] new [] vis par).
Proof. intros HR Hne. eapply Reach_step; [done|by constructor]. Qed.

(** The [for] loop follows [Reach_expand] until it meets the goal or has
    dequeued the whole layer. *)
Lemma bfs_for_reach L rest :
  square g →
  ∀ done new vis par,
    Reach g s goal (Config L done rest new vis par) →
    ∃ r, bfs_for goal (length rest) (BfsState (rest ++ new) vis par) done g
         = Done (r, g) ∧
         match r with
         | LayerDone layer st' =>
             layer = done ++ rest ∧
             Reach g s goal (Config L layer [] (st_q st') (st_visited st') (st_parent st'))
         | GoalFound layer st' =>
             ∃ pre post new',
               rest = pre ++ goal :: post ∧
               layer = (done ++ pre) ++ [goal] ∧
               st_q st' = post ++ new' ∧
               Reach g s goal (Config L (done ++ pre) (goal :: post) new'
                        (st_visited st') (st_parent st'))
         end.
Proof.
  intros Hsq. induction rest as [|u rest IH]; intros done new vis par HR.
  - eexists. split; [done|]. simpl. by rewrite app_nil_r.
  - cbn [length bfs_for st_q app]. destruct (decide (u = goal)) as [->|Hne].
    + eexists. split; [done|]. exists [], rest, new. simpl.
      by rewrite !app_nil_r.
    + unfold mbind, M_bind. rewrite neighbors_square by done.
      rewrite foldl_discover. simpl. rewrite <- app_assoc.
      apply Reach_expand in HR; [|done].
      destruct (IH _ _ _ _ HR) as (r & Hr & Hpost).
      exists r. split; [done|].
      destruct r as [layer st'|layer st'].
      * destruct Hpost as (pre & post & new' & Hrest & Hlayer & Hq & HR').
        exists (u :: pre), post, new'.
        rewrite <- (app_assoc done [u] pre) in Hlayer, HR'.
        by rewrite Hrest.
      * destruct Hpost as [Hlayer HR']. rewrite <- app_assoc in Hlayer. done.
Qed.

Lemma Inv_in_layers c v :
  Inv g s goal c → v ∈ concat (c_layers c) →
  ∃ i, i < length (c_layers c) ∧ dist g s v i.
Proof.
  intros HI (Li & Hv & [i Hi]%list_elem_of_lookup)%elem_of_concat.
  exists i. split; [by eapply lookup_lt_Some|].
  by apply (inv_layers _ _ _ c HI i Li).
Qed.

Lemma Inv_seen_dist c v :
  Inv g s goal c → v ∈ seen c → ∃ i, i ≤ S (length (c_layers c)) ∧ dist g s v i.
Proof.
  intros HI. unfold seen. rewrite elem_of_app, (assoc (++)), elem_of_app.
  intros [Hv|[Hv|Hv]].
  - destruct (Inv_in_layers c v HI Hv) as (i & ? & ?). exists i. split; [lia|done].
  - apply (inv_queue _ _ _ c HI) in Hv. eauto.
  - apply (inv_new _ _ _ c HI) in Hv. eauto.
Qed.

(** Every cell within fewer moves than the number of finished layers is in
    one of them. *)
Lemma Inv_covered_lt c v j :
  Inv g s goal c → walk g s v j → j < length (c_layers c) → v ∈ concat (c_layers c).
Proof.
  intros HI Hw. induction Hw as [|u v j Hw IH Hv]; intros Hj.
  - destruct (lookup_lt_is_Some_2 (c_layers c) 0) as [L0 HL0]; [lia|].
    apply elem_of_concat. exists L0. split.
    + apply (inv_layers _ _ _ c HI 0 L0); [done|apply dist_O].
    + by eapply list_elem_of_lookup_2.
  - assert (Hu : u ∈ expanded c).
    { unfold expanded. apply elem_of_app. left. apply IH. lia. }
    assert (Hseen := proj1 (inv_visited _ _ _ c HI v) (inv_expanded _ _ _ c HI u v Hu Hv)).
    unfold seen in Hseen.
    rewrite elem_of_app, (assoc (++)), elem_of_app in Hseen.
    destruct Hseen as [?|[Hq|Hn]]; [done|..].
    + apply (inv_queue _ _ _ c HI) in Hq as [_ Hmin].
      assert (Hw' : walk g s v (S j)) by (econstructor; eauto).
      apply Hmin in Hw'. lia.
    + apply (inv_new _ _ _ c HI) in Hn as [_ Hmin].
      assert (Hw' : walk g s v (S j)) by (econstructor; eauto).
      apply Hmin in Hw'. lia.
Qed.

(** Every cell within as many moves as there are finished layers has
    entered the current layer. *)
Lemma Inv_covered_le c v j :
  Inv g s goal c → walk g s v j → j ≤ length (c_layers c) →
  v ∈ concat (c_layers c) ++ c_done c ++ c_rest c.
Proof.
  intros HI Hw Hj.
  destruct (decide (j < length (c_layers c))) as [Hlt|Hge].
  { apply elem_of_app. left. by eapply Inv_covered_lt. }
  assert (j = length (c_layers c)) as -> by lia. clear Hj Hge.
  inversion Hw as [Hv Hk|u v' k Hu Hv Hv' Hk]; subst.
  - apply elem_of_app. right.
    apply (inv_queue _ _ _ c HI). rewrite <- Hk. apply dist_O.
  - assert (Hexp : u ∈ expanded c).
    { unfold expanded. apply elem_of_app. left.
      eapply Inv_covered_lt; [done..|lia]. }
    assert (Hseen := proj1 (inv_visited _ _ _ c HI v) (inv_expanded _ _ _ c HI u v Hexp Hv)).
    unfold seen in Hseen.
    rewrite elem_of_app, (assoc (++)), elem_of_app in Hseen.
    rewrite elem_of_app.
    destruct Hseen as [Hl|[Hq|Hn]]; [by left|by right|].
    apply (inv_new _ _ _ c HI) in Hn as [_ Hmin]. apply Hmin in Hw. lia.
Qed.

Lemma Inv_init : Inv g s goal (Config [] [] [s] [] {[s]} {[s := None]}).
Proof.
  split; simpl.
  - intros v. rewrite list_elem_of_singleton. split.
    + intros ->. apply dist_O.
    + apply dist_O_inv.
  - intros i Li v Hi. done.
  - intros v Hv. by apply elem_of_nil in Hv.
  - intros v. unfold seen. simpl. set_solver.
  - unfold seen. simpl. apply NoDup_singleton.
  - intros u v Hu. by apply elem_of_nil in Hu.
  - apply not_elem_of_nil.
  - intros v. rewrite elem_of_singleton. split.
    + intros [x Hx]. apply lookup_singleton_Some in Hx as [? _]. done.
    + intros ->. rewrite lookup_singleton_eq. eauto.
  - intros v. rewrite lookup_singleton_Some. naive_solver.
  - intros v u Hv. apply lookup_singleton_Some in Hv as [_ ?]. done.
  - constructor.
Qed.

Lemma Inv_expand L done u rest new vis par :
  Inv g s goal (Config L done (u :: rest) new vis par) →
  u ≠ goal →
  Inv g s goal (Config L (done ++ [u]) rest
         (new ++ fresh vis (open_nbrs g u))
         (list_to_set (fresh vis (open_nbrs g u)) ∪ vis)
         (set_parents u par (fresh vis (open_nbrs g u)))).
Proof.
  intros HI Hne.
  pose proof (inv_queue _ _ _ _ HI) as Hqueue.
  pose proof (inv_visited _ _ _ _ HI) as Hvis.
  pose proof (inv_expanded _ _ _ _ HI) as Hexp.
  pose proof (inv_root _ _ _ _ HI) as Hroot.
  pose proof (inv_dom _ _ _ _ HI) as Hdom.
  unfold seen, expanded in *. simpl in *.
  assert (Hu : dist g s u (length L)).
  { apply Hqueue. set_solver. }
  assert (Hfresh : ∀ v, v ∈ fresh vis (open_nbrs g u) →
                        dist g s v (S (length L))).
  { intros v [Hv Hnew]%elem_of_fresh. split.
    - econstructor; [apply Hu|done].
    - intros j Hj. destruct (decide (S (length L) ≤ j)); [done|].
      exfalso. apply Hnew, Hvis.
      assert (j ≤ length L) as Hle by lia.
      pose proof (Inv_covered_le _ v j HI Hj Hle) as Hc. simpl in Hc.
      set_solver. }
  split; simpl; unfold seen, expanded; simpl.
  - intros v. rewrite <- Hqueue. set_solver.
  - apply (inv_layers _ _ _ _ HI).
  - intros v [Hv|Hv]%elem_of_app; [by apply (inv_new _ _ _ _ HI)|by apply Hfresh].
  - intros v. rewrite elem_of_union, elem_of_list_to_set, Hvis. set_solver.
  - replace (concat L ++ (done ++ [u]) ++ rest ++ new ++ fresh vis (open_nbrs g u))
      with ((concat L ++ done ++ (u :: rest) ++ new) ++ fresh vis (open_nbrs g u))
      by (by rewrite <- !app_assoc).
    apply NoDup_app. split; [apply (inv_nodup _ _ _ _ HI)|]. split.
    + intros v Hv [_ Hnew]%elem_of_fresh. by apply Hnew, Hvis.
    + apply NoDup_fresh.
  - intros w v Hw Hv. rewrite elem_of_union, elem_of_list_to_set.
    rewrite (assoc (++)), elem_of_app, list_elem_of_singleton in Hw.
    destruct Hw as [Hw| ->].
    + right. by eapply Hexp.
    + destruct (decide (v ∈ vis)); [by right|left].
      by apply elem_of_fresh.
  - pose proof (inv_goal _ _ _ _ HI) as Hg. simpl in Hg. unfold expanded in Hg.
    simpl in Hg. set_solver.
  - intros v. rewrite lookup_set_parents, elem_of_union, elem_of_list_to_set.
    destruct (decide (v ∈ fresh vis (open_nbrs g u))).
    + split; [by left|eauto].
    + rewrite Hdom. tauto.
  - intros v. rewrite lookup_set_parents.
    destruct (decide (v ∈ fresh vis (open_nbrs g u))) as [Hv|Hv]; [|done].
    split; [done|]. intros ->.
    apply elem_of_fresh in Hv as [_ Hv]. destruct Hv.
    apply Hdom. exists None. by apply Hroot.
  - intros v w. rewrite lookup_set_parents.
    destruct (decide (v ∈ fresh vis (open_nbrs g u))) as [Hv|Hv].
    + intros [= <-]. split; [|split].
      * exists (concat L ++ done), []. split; [by rewrite (assoc (++))|].
        intros w Hw Hvw. apply elem_of_fresh in Hv as [_ Hv].
        apply Hv. by eapply Hexp.
      * by apply elem_of_fresh in Hv as [? _].
      * exists (length L). auto.
    + intros Hpar. destruct (inv_parent _ _ _ _ HI v w Hpar)
        as ((l1 & l2 & Heq & Hfirst) & ? & ?).
      split; [|done]. unfold expanded in Heq. simpl in Heq.
      exists l1, (l2 ++ [u]). split; [|done].
      rewrite (assoc (++)), Heq. by rewrite <- app_assoc.
  - apply (inv_nonempty _ _ _ _ HI).
Qed.

Lemma Inv_next L done new vis par :
  Inv g s goal (Config L done [] new vis par) →
  done ≠ [] →
  Inv g s goal (Config (L ++ [done]) [] new [] vis par).
Proof.
  intros HI Hne.
  pose proof (inv_queue _ _ _ _ HI) as Hqueue.
  pose proof (inv_visited _ _ _ _ HI) as Hvis.
  pose proof (inv_expanded _ _ _ _ HI) as Hexp.
  unfold seen, expanded in *. simpl in *.
  assert (Hcat : concat (L ++ [done]) = concat L ++ done).
  { rewrite concat_app. simpl. by rewrite app_nil_r. }
  assert (Hlen : length (L ++ [done]) = S (length L)).
  { rewrite length_app. simpl. lia. }
  split; simpl; unfold seen, expanded; simpl; rewrite ?Hcat, ?Hlen, ?app_nil_r.
  - intros v. split; [apply (inv_new _ _ _ _ HI)|].
    intros Hd. pose proof Hd as [Hw Hmin].
    apply walk_S_inv in Hw as (u & Hu & Hv).
    pose proof (Inv_covered_le _ u _ HI Hu (Nat.le_refl _)) as Hc.
    simpl in Hc. rewrite app_nil_r in Hc.
    pose proof (proj1 (Hvis v) (Hexp u v Hc Hv)) as Hseen.
    rewrite elem_of_app, elem_of_app in Hseen.
    destruct Hseen as [Hl|[Hq|Hn]]; [| |done].
    + destruct (Inv_in_layers _ v HI Hl) as (i & Hi & Hdi). simpl in Hi.
      pose proof (dist_inj _ _ _ _ _ Hd Hdi). lia.
    + assert (Hdk : dist g s v (length L)).
      { apply Hqueue. by rewrite app_nil_r. }
      pose proof (dist_inj _ _ _ _ _ Hd Hdk). lia.
  - intros i Li v Hi.
    apply lookup_app_Some in Hi as [Hi|[Hge Hi]].
    + by apply (inv_layers _ _ _ _ HI i).
    + apply list_lookup_singleton_Some in Hi as [Hi <-].
      assert (i = length L) as -> by lia.
      rewrite <- Hqueue. by rewrite app_nil_r.
  - intros v Hv. by apply elem_of_nil in Hv.
  - intros v. rewrite Hvis. by rewrite <- app_assoc.
  - pose proof (inv_nodup _ _ _ _ HI) as Hnd. unfold seen in Hnd. simpl in Hnd.
    by rewrite <- app_assoc.
  - done.
  - apply (inv_goal _ _ _ _ HI).
  - apply (inv_dom _ _ _ _ HI).
  - apply (inv_root _ _ _ _ HI).
  - apply (inv_parent _ _ _ _ HI).
  - apply Forall_app. split; [apply (inv_nonempty _ _ _ _ HI)|].
    by repeat constructor.
Qed.

Lemma Reach_Inv c : Reach g s goal c → Inv g s goal c.
Proof.
  induction 1 as [|c c' _ IH Hstep]; [apply Inv_init|].
  destruct Hstep; auto using Inv_expand, Inv_next.
Qed.

(** ** Termination: the queue only ever holds cells of the grid *)

Lemma length_all_cells : length (all_cells g) = length g * length g.
Proof.
  unfold all_cells. rewrite length_prod, length_seqZ. lia.
Qed.

Lemma elem_of_all_cells v : in_bounds g v → v ∈ all_cells g.
Proof.
  intros [Hx Hy]. destruct v as [x y]. simpl in *.
  unfold all_cells. apply list_elem_of_In, in_prod_iff.
  rewrite <- !list_elem_of_In, !elem_of_seqZ. lia.
Qed.

Lemma Inv_seen_bound c : Inv g s goal c → length (seen c) ≤ S (length g * length g).
Proof.
  intros HI. rewrite <- length_all_cells.
  change (S (length (all_cells g))) with (length (s :: all_cells g)).
  apply submseteq_length, NoDup_submseteq; [apply (inv_nodup _ _ _ c HI)|].
  intros v Hv. destruct (Inv_seen_dist c v HI Hv) as (i & _ & Hw & _).
  destruct (walk_cell g s v i Hw) as [->|[Hin _]].
  - by left.
  - right. by apply elem_of_all_cells.
Qed.

Lemma length_concat_nonempty (L : list (list Cell)) :
  Forall (λ Li : list Cell, Li ≠ []) L → length L ≤ length (concat L).
Proof.
  induction 1 as [|Li L HLi _ IH]; simpl; [done|].
  rewrite length_app. destruct Li; [done|]. simpl. lia.
Qed.

Lemma Inv_layers_bound c :
  Inv g s goal c → length (c_layers c) + length (c_done c ++ c_rest c)
          ≤ S (length g * length g).
Proof.
  intros HI. pose proof (Inv_seen_bound c HI) as Hb.
  pose proof (length_concat_nonempty _ (inv_nonempty _ _ _ c HI)) as Hl.
  unfold seen in Hb. rewrite !length_app in *. lia.
Qed.

Lemma bfs_while_reach fuel :
  square g →
  ∀ L q vis par,
    Reach g s goal (Config L [] q [] vis par) →
    S (S (length g * length g)) ≤ fuel + length L →
    ∃ layers parent,
      bfs_while fuel goal (BfsState q vis par) L g = Done ((layers, parent), g) ∧
      bfs_final g s goal layers parent.
Proof.
  intros Hsq. induction fuel as [|fuel IH]; intros L q vis par HR Hfuel.
  - pose proof (Inv_layers_bound _ (Reach_Inv _ HR)) as Hb. simpl in Hb. lia.
  - cbn [bfs_while st_q st_parent]. destruct q as [|u q'].
    + exists L, par. split; [done|]. by eapply final_exhausted.
    + unfold mbind, M_bind.
      destruct (bfs_for_reach L (u :: q') Hsq [] [] vis par HR)
        as (r & Hr & Hpost).
      rewrite app_nil_r in Hr. rewrite Hr.
      destruct r as [layer [q1 vis1 par1]|layer [q1 vis1 par1]]; simpl in *.
      * destruct Hpost as (pre & post & new' & Hrest & -> & Hq & HR').
        eexists _, _. split; [done|]. by eapply final_found.
      * destruct Hpost as [-> HR'].
        apply Reach_next in HR'; [|done].
        apply IH; [done|]. rewrite length_app. simpl. lia.
Qed.

(** On a square grid the search returns, whatever the start and goal, once
    the loop budget exceeds the number of cells by two; it leaves the maze
    as it found it and ends in one of the two final configurations. *)
Lemma bfs_layers_reach fuel :
  square g →
  S (S (length g * length g)) ≤ fuel →
  ∃ layers parent,
    _bfs_layers fuel s goal g = Done ((layers, parent), g) ∧
    bfs_final g s goal layers parent.
Proof.
  intros Hsq Hfuel. unfold _bfs_layers, mbind, M_bind, maze_len.
  apply bfs_while_reach; [done|constructor|simpl; lia].
Qed.
End Search.

(** ** The helpers only read the maze, and more fuel changes nothing *)

Lemma maze_get_frame x y g b g' : maze_get x y g = Done (b, g') → g' = g.
Proof.
  unfold maze_get. intros H.
  destruct (py_get g y) as [row|]; [|done].
  destruct (py_get row x); [|done]. by simplify_eq.
Qed.

Lemma neighbors_loop_frame x y n ds neigh g r g' :
  neighbors_loop x y n ds neigh g = Done (r, g') → g' = g.
Proof.
  revert neigh. induction ds as [|[dx dy] ds IH]; intros neigh H.
  - unfold neighbors_loop, mret, M_ret in H. by simplify_eq.
  - cbn [neighbors_loop] in H.
    destruct ((0 <=? x + dx) && (x + dx <? n) && ((0 <=? y + dy) && (y + dy <? n)))%Z;
      [|by eapply IH].
    unfold mbind, M_bind in H.
    destruct (maze_get (x + dx) (y + dy) g) as [[b g1]| |] eqn:Hget; [|done..].
    apply maze_get_frame in Hget as ->. by eapply IH.
Qed.

Lemma neighbors_frame node g r g' : _neighbors node g = Done (r, g') → g' = g.
Proof.
  destruct node as [x y]. unfold _neighbors, mbind, M_bind, maze_len.
  apply neighbors_loop_frame.
Qed.

Lemma bfs_for_frame goal m st layer g r g' :
  bfs_for goal m st layer g = Done (r, g') → g' = g.
Proof.
  revert st layer. induction m as [|m IH]; intros [q vis par] layer H.
  - unfold bfs_for, mret, M_ret in H. by simplify_eq.
  - cbn [bfs_for st_q st_visited st_parent] in H.
    destruct q as [|node q']; [done|].
    destruct (decide (node = goal)).
    + unfold mret, M_ret in H. by simplify_eq.
    + unfold mbind, M_bind in H.
      destruct (_neighbors node g) as [[nbs g1]| |] eqn:Hn; [|done..].
      apply neighbors_frame in Hn as ->. by eapply IH.
Qed.

Lemma bfs_while_frame fuel goal st layers g r g' :
  bfs_while fuel goal st layers g = Done (r, g') → g' = g.
Proof.
  revert st layers. induction fuel as [|fuel IH]; intros [q vis par] layers H.
  - done.
  - cbn [bfs_while st_q st_parent] in H. destruct q as [|u q'].
    + unfold mret, M_ret in H. by simplify_eq.
    + unfold mbind, M_bind in H.
      destruct (bfs_for goal (length (u :: q')) (BfsState (u :: q') vis par) [] g)
        as [[x g1]| |] eqn:Hfor; [|done..].
      apply bfs_for_frame in Hfor as ->.
      destruct x as [layer st'|layer st'].
      * unfold mret, M_ret in H. by simplify_eq.
      * by eapply IH.
Qed.

Lemma bfs_layers_frame fuel start goal g r g' :
  _bfs_layers fuel start goal g = Done (r, g') → g' = g.
Proof.
  unfold _bfs_layers, mbind, M_bind, maze_len. apply bfs_while_frame.
Qed.

Lemma bfs_while_mono fuel fuel' goal st layers g r :
  fuel ≤ fuel' →
  bfs_while fuel goal st layers g = Done r →
  bfs_while fuel' goal st layers g = Done r.
Proof.
  revert fuel' st layers g.
  induction fuel as [|fuel IH]; intros fuel' [q vis par] layers g Hle H; [done|].
  destruct fuel' as [|fuel']; [lia|].
  cbn [bfs_while st_q st_parent] in *. destruct q as [|u q']; [done|].
  unfold mbind, M_bind in *.
  destruct (bfs_for goal (length (u :: q')) (BfsState (u :: q') vis par) [] g)
    as [[x g1]| |]; [|done..].
  destruct x as [layer st'|layer st']; [done|].
  apply IH; [lia|done].
Qed.

Lemma bfs_layers_mono fuel fuel' start goal g r :
  fuel ≤ fuel' →
  _bfs_layers fuel start goal g = Done r →
  _bfs_layers fuel' start goal g = Done r.
Proof.
  unfold _bfs_layers, mbind, M_bind, maze_len. apply bfs_while_mono.
Qed.

(** Whatever budget made the search return, its result is the one described
    by [bfs_final]. *)
Lemma bfs_layers_final g start goal fuel layers parent g' :
  square g →
  _bfs_layers fuel start goal g = Done ((layers, parent), g') →
  g' = g ∧ bfs_final g start goal layers parent.
Proof.
  intros Hsq H. pose proof (bfs_layers_frame _ _ _ _ _ _ H) as ->.
  split; [done|].
  set (big := fuel `max` S (S (length g * length g))).
  destruct (bfs_layers_reach g start goal big Hsq) as (L & P & Hbig & Hfin);
    [lia|].
  apply (bfs_layers_mono fuel big) in H; [|lia].
  rewrite Hbig in H. by simplify_eq.
Qed.

(** ** What the returned layers and parent map satisfy *)

Section Results.
Context (g : Grid) (s goal : Cell).
Context (layers : list (list Cell)) (parent : ParentMap).
Context (Hfinal : bfs_final g s goal layers parent).

(** The dequeued cells are those of the returned layers, except that a
    goal that was found closes the last layer without being expanded. *)
Lemma final_config :
  ∃ c, Reach g s goal c ∧ c_parent c = parent ∧
       (concat layers = expanded c ∨ concat layers = expanded c ++ [goal]) ∧
       (∀ v, v ∈ concat layers → v ∈ seen c).
Proof.
  destruct Hfinal as [vis HR|L done post new vis HR ->].
  - eexists. split; [done|]. split; [done|]. unfold expanded, seen. simpl.
    rewrite !app_nil_r. auto.
  - eexists. split; [done|]. split; [done|]. unfold expanded, seen. simpl.
    rewrite concat_app. simpl. rewrite app_nil_r, (assoc (++)). split; [auto|].
    intros v. set_solver.
Qed.

Lemma final_layers_dist i Li v :
  layers !! i = Some Li → v ∈ Li → dist g s v i.
Proof.
  destruct Hfinal as [vis HR|L done post new vis HR ->];
    pose proof (Reach_Inv _ _ _ _ HR) as HI; intros Hi Hv.
  - by apply (inv_layers _ _ _ _ HI i Li).
  - apply lookup_app_Some in Hi as [Hi|[Hge Hi]].
    + by apply (inv_layers _ _ _ _ HI i Li).
    + apply list_lookup_singleton_Some in Hi as [Hi <-].
      assert (i = length L) as -> by lia.
      apply (inv_queue _ _ _ _ HI). simpl. set_solver.
Qed.

Lemma final_nodup : NoDup (concat layers).
Proof.
  destruct Hfinal as [vis HR|L done post new vis HR ->];
    pose proof (inv_nodup _ _ _ _ (Reach_Inv _ _ _ _ HR)) as Hnd;
    unfold seen in Hnd; simpl in Hnd.
  - by rewrite app_nil_r in Hnd.
  - rewrite concat_app. simpl. rewrite app_nil_r.
    assert (Heq : concat L ++ done ++ (goal :: post) ++ new
                  = (concat L ++ done ++ [goal]) ++ post ++ new)
      by (by rewrite <- !app_assoc).
    simpl in Heq. rewrite Heq in Hnd.
    by apply NoDup_app in Hnd as [? _].
Qed.

(** Once the queue has run empty every cell within reach is in a layer. *)
Lemma Inv_exhausted_covers L vis par v k :
  Inv g s goal (Config L [] [] [] vis par) → walk g s v k → v ∈ concat L.
Proof.
  intros HI.
  assert (Hseen : ∀ x, x ∈ vis ↔ x ∈ concat L).
  { intros x. rewrite (inv_visited _ _ _ _ HI). unfold seen. simpl.
    by rewrite !app_nil_r. }
  intros Hw. apply Hseen. induction Hw as [|u v k Hw IH Hv].
  - apply (inv_dom _ _ _ _ HI). exists None. by apply (inv_root _ _ _ _ HI).
  - eapply (inv_expanded _ _ _ _ HI); [|done].
    unfold expanded. simpl. rewrite app_nil_r. by apply Hseen.
Qed.

(** A goal within reach is found: it closes the last layer. *)
Lemma final_found_goal k :
  walk g s goal k →
  ∃ init pre, layers = init ++ [pre ++ [goal]] ∧
              goal ∉ (concat init ++ pre).
Proof.
  intros Hw. destruct Hfinal as [vis HR|L done post new vis HR ->];
    pose proof (Reach_Inv _ _ _ _ HR) as HI.
  - exfalso. apply (inv_goal _ _ _ _ HI). unfold expanded. simpl.
    rewrite app_nil_r. by eapply Inv_exhausted_covers.
  - exists L, done. split; [done|]. apply (inv_goal _ _ _ _ HI).
Qed.

(** A goal out of reach lets the search visit every cell within reach. *)
Lemma final_exhaustive v k :
  (∀ j, ¬ walk g s goal j) → walk g s v k →
  v ∈ concat layers ∧ is_Some (parent !! v).
Proof.
  intros Hno Hw. destruct Hfinal as [vis HR|L done post new vis HR ->];
    pose proof (Reach_Inv _ _ _ _ HR) as HI.
  - pose proof (Inv_exhausted_covers _ _ _ _ _ HI Hw) as Hv.
    split; [done|].
    apply (inv_dom _ _ _ _ HI), (inv_visited _ _ _ _ HI).
    unfold seen. simpl. by rewrite !app_nil_r.
  - exfalso. assert (Hg : dist g s goal (length L)).
    { apply (inv_queue _ _ _ _ HI). simpl. set_solver. }
    destruct Hg as [Hg _]. by eapply Hno.
Qed.

Lemma final_parent_start : parent !! s = Some None.
Proof.
  destruct final_config as (c & HR & <- & _).
  by apply (inv_root _ _ _ _ (Reach_Inv _ _ _ _ HR)).
Qed.

Lemma final_parent_root v : parent !! v = Some None → v = s.
Proof.
  destruct final_config as (c & HR & <- & _).
  by apply (inv_root _ _ _ _ (Reach_Inv _ _ _ _ HR)).
Qed.

(** Nothing beyond the layer after the last returned one is ever recorded. *)
Lemma final_parent_dist_bound v :
  is_Some (parent !! v) → ∃ i, i ≤ length layers ∧ dist g s v i.
Proof.
  destruct Hfinal as [vis HR|L done post new vis HR ->];
    pose proof (Reach_Inv _ _ _ _ HR) as HI;
    intros Hv%(inv_dom _ _ _ _ HI)%(inv_visited _ _ _ _ HI).
  - unfold seen in Hv. simpl in Hv. rewrite !app_nil_r in Hv.
    destruct (Inv_in_layers _ _ _ _ _ HI Hv) as (i & Hi & ?). simpl in Hi.
    exists i. split; [lia|done].
  - destruct (Inv_seen_dist _ _ _ _ _ HI Hv) as (i & Hi & ?). simpl in Hi.
    exists i. split; [rewrite length_app; simpl; lia|done].
Qed.

Lemma final_parent_dist v : is_Some (parent !! v) → ∃ i, dist g s v i.
Proof.
  destruct final_config as (c & HR & <- & _).
  pose proof (Reach_Inv _ _ _ _ HR) as HI.
  intros Hv%(inv_dom _ _ _ _ HI)%(inv_visited _ _ _ _ HI).
  destruct (Inv_seen_dist _ _ _ _ _ HI Hv) as (i & _ & ?). eauto.
Qed.

(** A recorded parent was dequeued before any other cell that neighbours
    the child; it is not the goal, lies one step closer to the start, and
    has an entry itself. *)
Lemma final_parent_step v u :
  parent !! v = Some (Some u) →
  (∃ l1 l2, concat layers = l1 ++ u :: l2 ∧
            ∀ w, w ∈ l1 → v ∉ open_nbrs g w) ∧
  v ∈ open_nbrs g u ∧
  (∃ j, dist g s u j ∧ dist g s v (S j)) ∧
  u ≠ goal ∧ is_Some (parent !! u).
Proof.
  destruct final_config as (c & HR & <- & Hcat & _).
  pose proof (Reach_Inv _ _ _ _ HR) as HI. intros Hpar.
  destruct (inv_parent _ _ _ _ HI v u Hpar)
    as ((l1 & l2 & Heq & Hfirst) & Hnb & Hdist).
  assert (Hu : u ∈ expanded c) by (rewrite Heq; set_solver).
  repeat split; try done.
  - destruct Hcat as [->| ->].
    + by exists l1, l2.
    + exists l1, (l2 ++ [goal]). split; [|done].
      by rewrite Heq, <- app_assoc.
  - intros ->. by apply (inv_goal _ _ _ _ HI).
  - apply (inv_dom _ _ _ _ HI), (inv_visited _ _ _ _ HI).
    unfold seen. unfold expanded in Hu.
    rewrite (assoc (++)), elem_of_app. by left.
Qed.
End Results.

(** ** Following the parent pointers *)

Lemma reconstruct_loop_chain par s v p :
  chain par s v p →
  ∀ acc fuel, length p < fuel →
    reconstruct_loop fuel par (Some v) acc = Done (acc ++ reverse p).
Proof.
  induction 1 as [Hs|u v p Hch IH Hv]; intros acc fuel Hfuel.
  - destruct fuel as [|[|fuel]]; [simpl in *; lia..|].
    simpl. by rewrite Hs.
  - rewrite length_app in Hfuel. destruct fuel as [|fuel]; [lia|].
    cbn [reconstruct_loop]. rewrite Hv. cbn [mjoin option_join].
    rewrite IH by (simpl in *; lia).
    by rewrite reverse_snoc, <- app_assoc.
Qed.

Lemma NoDup_length_size (l : list Cell) (m : ParentMap) :
  NoDup l → (∀ x, x ∈ l → is_Some (m !! x)) → length l ≤ size m.
Proof.
  intros Hnd Hin.
  rewrite <- (size_dom (D := gset Cell)).
  rewrite <- (size_list_to_set (C := gset Cell) l) by done.
  apply subseteq_size. intros x Hx. apply elem_of_list_to_set in Hx.
  by apply elem_of_dom, Hin.
Qed.

Section Reconstruct.
Context (g : Grid) (s goal : Cell).
Context (layers : list (list Cell)) (parent : ParentMap).
Context (Hfinal : bfs_final g s goal layers parent).

Lemma chain_exists j v :
  dist g s v j → is_Some (parent !! v) →
  ∃ p, chain parent s v p.
Proof.
  revert v. induction j as [|j IH]; intros v Hd [[u|] Hv].
  - destruct (final_parent_step g s goal layers parent Hfinal v u Hv)
      as (_ & _ & (i & _ & Hdv) & _).
    pose proof (dist_inj _ _ _ _ _ Hd Hdv). lia.
  - apply (final_parent_root g s goal layers parent Hfinal) in Hv as Heq.
    subst v. exists [s]. by constructor.
  - destruct (final_parent_step g s goal layers parent Hfinal v u Hv)
      as (_ & _ & (i & Hdu & Hdv) & _ & Hu).
    pose proof (dist_inj _ _ _ _ _ Hd Hdv). simplify_eq.
    destruct (IH u Hdu Hu) as [p Hp]. exists (p ++ [v]).
    by econstructor.
  - apply (final_parent_root g s goal layers parent Hfinal) in Hv as Heq.
    subst v. exists [s]. by constructor.
Qed.

Lemma chain_path v p :
  passable g s → chain parent s v p →
  ∃ j, length p = S j ∧ dist g s v j ∧
       head p = Some s ∧ last p = Some v ∧
       legal_moves g p ∧ NoDup p ∧
       ∀ x, x ∈ p → is_Some (parent !! x) ∧ ∃ i, i ≤ j ∧ dist g s x i.
Proof.
  intros Hs. induction 1 as [Hroot|u v p Hch IH Hv].
  - exists 0. split; [done|]. split; [apply dist_O|].
    split; [done|]. split; [done|]. split; [by intros [|i] a b|].
    split; [apply NoDup_singleton|].
    intros x ->%list_elem_of_singleton. split; [eauto|].
    exists 0. split; [lia|apply dist_O].
  - destruct IH as (j & Hlen & Hdu & Hhd & Hlast & Hmoves & Hnd & Hel).
    destruct (final_parent_step g s goal layers parent Hfinal v u Hv)
      as (_ & Hnb & (i & Hdu' & Hdv) & _ & _).
    pose proof (dist_inj _ _ _ _ _ Hdu Hdu') as <-.
    apply elem_of_open_nbrs in Hnb as [Hadj Hpv].
    exists (S j). split; [rewrite length_app; simpl; lia|].
    split; [done|].
    apply last_Some in Hlast as [p' ->].
    split; [by destruct p'|]. split; [by rewrite last_snoc|].
    split; [|split].
    + apply legal_moves_snoc; [done..| |done].
      destruct Hdu as [Hw _]. exact (walk_passable g s u j Hs Hw).
    + apply NoDup_app. split; [done|]. split; [|apply NoDup_singleton].
      intros x Hx ->%list_elem_of_singleton.
      destruct (Hel _ Hx) as (_ & i & Hi & Hdx).
      pose proof (dist_inj _ _ _ _ _ Hdx Hdv). lia.
    + intros x [Hx| ->%list_elem_of_singleton]%elem_of_app.
      * destruct (Hel _ Hx) as (? & i & ? & ?). split; [done|].
        exists i. split; [lia|done].
      * split; [eauto|]. exists (S j). split; [lia|done].
Qed.

(** The path rebuilt from the parent map of a finished search. *)
Lemma reconstruct_path_final fuel :
  passable g s → is_Some (parent !! goal) → size parent < fuel →
  ∃ path j,
    _reconstruct_path fuel parent s goal = Done path ∧
    head path = Some s ∧ last path = Some goal ∧
    NoDup path ∧ legal_moves g path ∧
    length path = S j ∧ dist g s goal j.
Proof.
  intros Hs Hgoal Hfuel.
  destruct (final_parent_dist g s goal layers parent Hfinal goal Hgoal)
    as [j Hd].
  destruct (chain_exists j goal Hd Hgoal) as [p Hch].
  destruct (chain_path goal p Hs Hch)
    as (j' & Hlen & Hd' & Hhd & Hlast & Hmoves & Hnd & Hel).
  exists p, j'. unfold _reconstruct_path.
  rewrite decide_True by (by apply elem_of_dom).
  rewrite (reconstruct_loop_chain parent s goal p Hch).
  - simpl. unfold mret, outcome_ret. by rewrite reverse_involutive.
  - eapply Nat.le_lt_trans; [|done].
    apply NoDup_length_size; [done|]. intros x Hx. by apply Hel.
Qed.
End Reconstruct.

(** * The search: layers, distances, termination *)

Lemma NoDup_concat_elem {A} (ls : list (list A)) (l : list A) :
  NoDup (concat ls) → l ∈ ls → NoDup l.
Proof.
  induction ls as [|l' ls IH]; simpl; intros Hnd Hl.
  - by apply elem_of_nil in Hl.
  - apply NoDup_app in Hnd as (? & _ & ?).
    apply elem_of_cons in Hl as [->|?]; auto.
Qed.

(** A step of the run only adds entries to the parent map: an entry that is
    set keeps its value. *)
Lemma bfs_step_parent_mono g s goal c c' :
  Reach g s goal c → bfs_step g goal c c' → c_parent c ⊆ c_parent c'.
Proof.
  intros HI%Reach_Inv Hstep.
  destruct Hstep as [L dq u rest new vis par _|]; [|done].
  simpl. apply map_subseteq_spec. intros v x Hv.
  rewrite lookup_set_parents.
  destruct (decide (v ∈ fresh vis (open_nbrs g u))) as [Hfr|]; [|done].
  apply elem_of_fresh in Hfr as [_ Hnew]. destruct Hnew.
  apply (inv_dom _ _ _ _ HI). simpl. eauto.
Qed.

Ltac solve_passable := split; [split; simpl; lia | reflexivity].

Ltac solve_legal_moves :=
  intros [|[|[|[|[|[|[|[|?]]]]]]]] ? ? ? ?; simplify_eq/=;
  (split; [unfold adjacent; simpl; lia | split; solve_passable]).

Lemma maze3_square : square maze3.
Proof. repeat constructor. Qed.

Lemma maze3_reachable : reachable maze3 (0, 0)%Z (2, 2)%Z.
Proof.
  exists [(0, 0); (1, 0); (2, 0); (2, 1); (2, 2)]%Z.
  split; [done|]. split; [done|]. solve_legal_moves.
Qed.

(** C1: on a square grid with a passable start and the goal within reach,
    the search returns, the goal appears in a returned layer, and the index
    of any layer that holds the goal is the number of edges of a shortest
    4-directional path of passable cells from start to goal. *)
Theorem bfs_goal_layer_is_shortest_distance g start goal fuel :
  square g → passable g start → reachable g start goal →
  S (S (length g * length g)) ≤ fuel →
  ∃ layers parent,
    _bfs_layers fuel start goal g = Done ((layers, parent), g) ∧
    (∃ i Li, layers !! i = Some Li ∧ goal ∈ Li) ∧
    (∀ i Li, layers !! i = Some Li → goal ∈ Li →
             shortest_path_length g start goal i).
Proof.
  intros Hsq Hs Hreach Hfuel.
  destruct (bfs_layers_reach g start goal fuel Hsq Hfuel)
    as (layers & parent & Hrun & Hfin).
  exists layers, parent. split; [done|]. split.
  - destruct (reachable_walk _ _ _ Hreach) as [k Hk].
    destruct (final_found_goal _ _ _ _ _ Hfin k Hk) as (init & pre & -> & _).
    exists (length init), (pre ++ [goal]). split.
    + by rewrite lookup_app_r, Nat.sub_diag.
    + set_solver.
  - intros i Li Hi Hg. apply dist_shortest; [done|].
    by eapply final_layers_dist.
Qed.

Lemma bfs_goal_layer_is_shortest_distance_witness :
  ∃ layers parent,
    _bfs_layers 11 (0, 0)%Z (2, 2)%Z maze3 = Done ((layers, parent), maze3) ∧
    (∃ i Li, layers !! i = Some Li ∧ (2, 2)%Z ∈ Li) ∧
    (∀ i Li, layers !! i = Some Li → (2, 2)%Z ∈ Li →
             shortest_path_length maze3 (0, 0)%Z (2, 2)%Z i).
Proof.
  apply bfs_goal_layer_is_shortest_distance.
  - apply maze3_square.
  - solve_passable.
  - apply maze3_reachable.
  - simpl. lia.
Defined.

Lemma maze3_run :
  _bfs_layers 11 (0, 0)%Z (2, 2)%Z maze3
  = Done ((maze3_layers, maze3_parent), maze3).
Proof. vm_compute. reflexivity. Qed.

(** The search for the centre of [maze3]: it returns in the middle of the
    third layer. *)
Lemma maze3_center_run :
  _bfs_layers 11 (0, 0)%Z (1, 1)%Z maze3
  = Done ((maze3_center_layers, maze3_center_parent), maze3).
Proof. vm_compute. reflexivity. Qed.

(** The layers of the full search of [maze3] give the distances from
    [(0, 0)]. *)
Lemma maze3_distances i Li v :
  maze3_layers !! i = Some Li → v ∈ Li →
  shortest_path_length maze3 (0, 0)%Z v i.
Proof.
  intros Hi Hv.
  destruct (bfs_layers_final _ _ _ _ _ _ _ maze3_square maze3_run) as [_ Hfin].
  apply dist_shortest; [solve_passable|].
  by eapply (final_layers_dist _ _ _ _ _ Hfin).
Qed.

(** ** What an early return leaves behind *)

Section EarlyReturn.
Context (g : Grid) (s goal : Cell).
Context (layers : list (list Cell)) (parent : ParentMap).
Context (Hfinal : bfs_final g s goal layers parent).

(** The recorded cells are the start and the open neighbours of the
    dequeued cells other than the goal. *)
Lemma final_recorded_iff v :
  is_Some (parent !! v) ↔
  v = s ∨ ∃ u, u ∈ concat layers ∧ u ≠ goal ∧ v ∈ open_nbrs g u.
Proof.
  destruct (final_config _ _ _ _ _ Hfinal) as (c & HR & <- & Hcat & _).
  pose proof (Reach_Inv _ _ _ _ HR) as HI.
  pose proof (inv_goal _ _ _ _ HI) as Hgoal.
  assert (Hexp : ∀ u, u ∈ expanded c ↔ u ∈ concat layers ∧ u ≠ goal).
  { intros u. destruct Hcat as [->| ->].
    - split; [|by intros [? _]]. intros Hu. split; [done|]. by intros ->.
    - rewrite elem_of_app, list_elem_of_singleton. split.
      + intros Hu. split; [by left|]. by intros ->.
      + intros [[?|?] ?]; done. }
  split.
  - intros [[u|] Hv].
    + right. exists u.
      destruct (inv_parent _ _ _ _ HI v u Hv) as ((l1 & l2 & Heq & _) & Hnb & _).
      assert (Hu : u ∈ expanded c) by (rewrite Heq; set_solver).
      apply Hexp in Hu as [? ?]. done.
    + left. by apply (inv_root _ _ _ _ HI).
  - intros [->|(u & Hu & Hne & Hnb)].
    + exists None. by apply (inv_root _ _ _ _ HI).
    + apply (inv_dom _ _ _ _ HI). eapply (inv_expanded _ _ _ _ HI); [|done].
      by apply Hexp.
Qed.

(** The layers, the queue and the parent map at the moment the goal is
    dequeued. *)
Lemma final_found_structure k :
  walk g s goal k →
  ∃ init pre post,
    layers = init ++ [pre ++ [goal]] ∧
    (goal ∉ concat init ++ pre) ∧
    NoDup (pre ++ goal :: post) ∧
    (∀ v, v ∈ pre ++ goal :: post ↔ dist g s v (length init)) ∧
    (∀ i Li v, init !! i = Some Li → v ∈ Li ↔ dist g s v i) ∧
    (∀ v, v ∈ post → is_Some (parent !! v) ∧ v ∉ concat layers) ∧
    (∀ v, is_Some (parent !! v) ↔
          (∃ i, i ≤ length init ∧ dist g s v i) ∨
          (dist g s v (S (length init)) ∧ ∃ u, u ∈ pre ∧ v ∈ open_nbrs g u)).
Proof.
  intros Hk. destruct Hfinal as [vis HR|L dq post new vis HR ->];
    pose proof (Reach_Inv _ _ _ _ HR) as HI.
  { exfalso. apply (inv_goal _ _ _ _ HI). unfold expanded. simpl.
    rewrite app_nil_r. by eapply Inv_exhausted_covers. }
  pose proof (inv_nodup _ _ _ _ HI) as Hnd. unfold seen in Hnd.
  cbn [c_layers c_done c_rest c_new] in Hnd.
  pose proof (inv_visited _ _ _ _ HI) as Hvis. unfold seen in Hvis.
  cbn [c_layers c_done c_rest c_new c_visited] in Hvis.
  pose proof (inv_queue _ _ _ _ HI) as Hqueue.
  cbn [c_layers c_done c_rest] in Hqueue.
  apply NoDup_app in Hnd as (_ & Hsep & Hnd).
  rewrite (assoc (++)) in Hnd. apply NoDup_app in Hnd as (Hnd & _ & _).
  exists L, dq, post. split; [done|]. split; [apply (inv_goal _ _ _ _ HI)|].
  split; [done|]. split; [done|]. split; [apply (inv_layers _ _ _ _ HI)|].
  split; [|split].
  - intros v Hv. split.
    + apply (inv_dom _ _ _ _ HI), Hvis. set_solver.
    + rewrite concat_app. simpl. rewrite app_nil_r.
      intros [Hl|Hd]%elem_of_app.
      * apply (Hsep v Hl). set_solver.
      * apply NoDup_app in Hnd as (_ & Hsep' & Hnd').
        apply elem_of_app in Hd as [Hd|Hd%list_elem_of_singleton].
        -- apply (Hsep' v Hd). set_solver.
        -- subst v. apply NoDup_cons in Hnd' as [? _]. done.
  - intros Hv%(inv_dom _ _ _ _ HI)%Hvis.
    apply elem_of_app in Hv as [Hl|Hv].
    { destruct (Inv_in_layers _ _ _ _ _ HI Hl) as (i & Hi & Hdi).
      simpl in Hi. left. exists i. split; [lia|done]. }
    rewrite (assoc (++)) in Hv. apply elem_of_app in Hv as [Hq|Hn].
    { left. exists (length L). split; [done|]. by apply Hqueue. }
    right. pose proof (inv_new _ _ _ _ HI v Hn) as Hdv. simpl in Hdv.
    split; [done|].
    assert (Hrec : is_Some (parent !! v)).
    { apply (inv_dom _ _ _ _ HI), Hvis. set_solver. }
    destruct Hrec as [[u|] Hpar].
    + exists u.
      destruct (inv_parent _ _ _ _ HI v u Hpar)
        as ((l1 & l2 & Heq & _) & Hnb & j & Hdu & Hdv').
      split; [|done].
      pose proof (dist_inj _ _ _ _ _ Hdv Hdv') as Hj. simplify_eq.
      assert (Hu : u ∈ expanded (Config L dq (goal :: post) new vis parent))
        by (rewrite Heq; set_solver).
      unfold expanded in Hu. simpl in Hu.
      apply elem_of_app in Hu as [Hl|?]; [|done].
      destruct (Inv_in_layers _ _ _ _ _ HI Hl) as (i & Hi & Hdi).
      simpl in Hi. pose proof (dist_inj _ _ _ _ _ Hdu Hdi). lia.
    + apply (inv_root _ _ _ _ HI) in Hpar. simpl in Hpar. subst v.
      pose proof (dist_inj _ _ _ _ _ Hdv (dist_O g s)). lia.
  - intros [(i & Hi & [Hw _])|(_ & u & Hu & Hnb)].
    + apply (inv_dom _ _ _ _ HI), Hvis.
      pose proof (Inv_covered_le _ _ _ _ v i HI Hw Hi) as Hc. simpl in Hc.
      set_solver.
    + apply (inv_dom _ _ _ _ HI). eapply (inv_expanded _ _ _ _ HI); [|done].
      unfold expanded. simpl. set_solver.
Qed.
End EarlyReturn.




(** C8: on a square grid the search returns for every start and goal once
    the loop budget exceeds the number of cells by two, reachable goal or
    not; throughout the run the cells that ever entered the queue are
    pairwise distinct, they are exactly the visited set, and there are at
    most as many as the grid has cells, plus one for the start. *)
Theorem bfs_layers_terminates g start goal fuel :
  square g →
  S (S (length g * length g)) ≤ fuel →
  (∃ layers parent,
     _bfs_layers fuel start goal g = Done ((layers, parent), g) ∧
     bfs_final g start goal layers parent) ∧
  (∀ c, Reach g start goal c →
        NoDup (seen c) ∧
        (∀ v, v ∈ c_visited c ↔ v ∈ seen c) ∧
        length (seen c) ≤ S (length g * length g)).
Proof.
  intros Hsq Hfuel. split; [by apply bfs_layers_reach|].
  intros c HI%Reach_Inv. split; [apply (inv_nodup _ _ _ _ HI)|].
  split; [apply (inv_visited _ _ _ _ HI)|by eapply Inv_seen_bound].
Qed.

Lemma bfs_layers_terminates_witness :
  (∃ layers parent,
     _bfs_layers 11 (0, 0)%Z (2, 2)%Z maze3 = Done ((layers, parent), maze3) ∧
     bfs_final maze3 (0, 0)%Z (2, 2)%Z layers parent) ∧
  (∀ c, Reach maze3 (0, 0)%Z (2, 2)%Z c →
        NoDup (seen c) ∧
        (∀ v, v ∈ c_visited c ↔ v ∈ seen c) ∧
        length (seen c) ≤ S (length maze3 * length maze3)).
Proof.
  apply bfs_layers_terminates.
  - apply maze3_square.
  - simpl. lia.
Defined.

(** C10: the layers returned on a square grid hold each cell at most once:
    their concatenation has no duplicates, so no layer repeats a cell and
    no cell lies in two layers. *)
Theorem bfs_layers_pairwise_disjoint g start goal fuel layers parent g' :
  square g →
  _bfs_layers fuel start goal g = Done ((layers, parent), g') →
  NoDup (concat layers) ∧
  (∀ Li, Li ∈ layers → NoDup Li) ∧
  (∀ i j Li Lj v, layers !! i = Some Li → layers !! j = Some Lj →
                  v ∈ Li → v ∈ Lj → i = j).
Proof.
  intros Hsq Hrun.
  destruct (bfs_layers_final _ _ _ _ _ _ _ Hsq Hrun) as [-> Hfin].
  pose proof (final_nodup _ _ _ _ _ Hfin) as Hnd.
  split; [done|]. split.
  - intros Li HLi. by eapply NoDup_concat_elem.
  - intros i j Li Lj v Hi Hj Hvi Hvj.
    eapply dist_inj; by eapply final_layers_dist.
Qed.

Lemma bfs_layers_pairwise_disjoint_witness :
  NoDup (concat maze3_layers) ∧
  (∀ Li, Li ∈ maze3_layers → NoDup Li) ∧
  (∀ i j Li Lj v, maze3_layers !! i = Some Li → maze3_layers !! j = Some Lj →
                  v ∈ Li → v ∈ Lj → i = j).
Proof.
  apply (bfs_layers_pairwise_disjoint maze3 (0, 0)%Z (2, 2)%Z 11
           maze3_layers maze3_parent maze3).
  - apply maze3_square.
  - apply maze3_run.
Defined.

(** * The parent map *)

(** C5 as stated fails: the search from [(0, 0)] to [(0, 0)] on the open
    3×3 grid returns at once, and the reachable cell [(1, 0)] has no
    entry. *)
Lemma parent_map_misses_reachable_cell :
  ∃ layers parent,
    _bfs_layers 11 (0, 0)%Z (0, 0)%Z maze3 = Done ((layers, parent), maze3) ∧
    reachable maze3 (0, 0)%Z (1, 0)%Z ∧
    parent !! (1, 0)%Z = None.
Proof.
  exists [[(0, 0)%Z]], {[(0, 0)%Z := None]}.
  split; [vm_compute; reflexivity|]. split; [|vm_compute; reflexivity].
  exists [(0, 0); (1, 0)]%Z. split; [done|]. split; [done|]. solve_legal_moves.
Qed.

(** ** Entries of the parent map are written once *)

(** The keys of [parent] are cells of [visited], and the test
    [nb not in visited] guards the only assignment [parent[nb] = node]: the
    body of the inner loop keeps every entry and this relation between the
    two locals. *)
Lemma discover_parent_mono node st nb :
  dom (st_parent st) ⊆ st_visited st →
  st_parent st ⊆ st_parent (discover node st nb) ∧
  dom (st_parent (discover node st nb)) ⊆ st_visited (discover node st nb).
Proof.
  intros Hdom. unfold discover. destruct (decide (nb ∈ st_visited st)) as [|Hnb].
  - done.
  - simpl. split.
    + apply insert_subseteq, not_elem_of_dom. set_solver.
    + rewrite dom_insert. set_solver.
Qed.

Lemma foldl_discover_parent_mono node nbs st :
  dom (st_parent st) ⊆ st_visited st →
  st_parent st ⊆ st_parent (foldl (discover node) st nbs) ∧
  dom (st_parent (foldl (discover node) st nbs))
    ⊆ st_visited (foldl (discover node) st nbs).
Proof.
  revert st. induction nbs as [|nb nbs IH]; intros st Hdom; [done|].
  cbn [foldl].
  destruct (discover_parent_mono node st nb Hdom) as [Hsub Hdom'].
  destruct (IH _ Hdom') as [Hsub' Hdom''].
  split; [by etrans|done].
Qed.

Lemma bfs_for_parent_mono goal m st layer g r g' :
  dom (st_parent st) ⊆ st_visited st →
  bfs_for goal m st layer g = Done (r, g') →
  match r with
  | GoalFound _ st' | LayerDone _ st' =>
      st_parent st ⊆ st_parent st' ∧ dom (st_parent st') ⊆ st_visited st'
  end.
Proof.
  revert st layer g. induction m as [|m IH]; intros [q vis par] layer g Hdom H.
  - unfold bfs_for, mret, M_ret in H. by simplify_eq.
  - cbn [bfs_for st_q st_visited st_parent] in H.
    destruct q as [|node q']; [done|].
    destruct (decide (node = goal)).
    + unfold mret, M_ret in H. by simplify_eq.
    + unfold mbind, M_bind in H.
      destruct (_neighbors node g) as [[nbs g1]| |] eqn:Hn; [|done..].
      destruct (foldl_discover_parent_mono node nbs (BfsState q' vis par) Hdom)
        as [Hsub Hdom'].
      specialize (IH _ _ _ Hdom' H).
      destruct r as [l st'|l st']; destruct IH as [Hsub' ?];
        (split; [by etrans|done]).
Qed.

Lemma bfs_while_parent_mono fuel goal st layers g r g' :
  dom (st_parent st) ⊆ st_visited st →
  bfs_while fuel goal st layers g = Done (r, g') →
  st_parent st ⊆ r.2.
Proof.
  revert st layers g.
  induction fuel as [|fuel IH]; intros [q vis par] layers g Hdom H; [done|].
  cbn [bfs_while st_q st_parent] in H. destruct q as [|u q'].
  - unfold mret, M_ret in H. by simplify_eq.
  - unfold mbind, M_bind in H.
    destruct (bfs_for goal (length (u :: q')) (BfsState (u :: q') vis par) [] g)
      as [[x g1]| |] eqn:Hfor; [|done..].
    apply bfs_for_parent_mono in Hfor; [|done].
    destruct x as [layer st'|layer st']; destruct Hfor as [Hsub Hdom'].
    + unfold mret, M_ret in H. by simplify_eq.
    + etrans; [exact Hsub|]. by eapply IH.
Qed.

(** C5, amended: on a square grid with a passable start, in the returned
    parent map the start, and only the start, maps to [None]; every other
    entry maps a cell to the first dequeued cell that has it as an open
    neighbour.  An entry, once written, is never changed: the loop body
    [discover] keeps every entry of a state whose parent keys are visited
    (as they are from the first state on), and so does the whole [while]
    loop up to the map it returns.  The recorded cells are exactly the start
    and the open neighbours of the dequeued cells other than the goal; every
    recorded cell is reachable.  When the goal is [d] steps away, every cell
    at most [d] steps away is recorded and no recorded cell is more than
    [d + 1] steps away; when the goal is not reachable, every reachable cell
    is recorded. *)
Theorem parent_map_first_discovery g start goal fuel layers parent g' :
  square g → passable g start →
  _bfs_layers fuel start goal g = Done ((layers, parent), g') →
  parent !! start = Some None ∧
  (∀ v, parent !! v = Some None → v = start) ∧
  (∀ v u, parent !! v = Some (Some u) →
          v ∈ open_nbrs g u ∧
          ∃ l1 l2, concat layers = l1 ++ u :: l2 ∧
                   ∀ w, w ∈ l1 → v ∉ open_nbrs g w) ∧
  (∀ node st nb v p,
     dom (st_parent st) ⊆ st_visited st →
     st_parent st !! v = Some p →
     st_parent (discover node st nb) !! v = Some p ∧
     dom (st_parent (discover node st nb))
       ⊆ st_visited (discover node st nb)) ∧
  (∀ fuel0 st ls g0 ls' parent' g1 v p,
     dom (st_parent st) ⊆ st_visited st →
     bfs_while fuel0 goal st ls g0 = Done ((ls', parent'), g1) →
     st_parent st !! v = Some p → parent' !! v = Some p) ∧
  (∀ v, is_Some (parent !! v) ↔
        v = start ∨
        ∃ u, u ∈ concat layers ∧ u ≠ goal ∧ v ∈ open_nbrs g u) ∧
  (∀ v, is_Some (parent !! v) → reachable g start v) ∧
  (∀ d, shortest_path_length g start goal d →
        (∀ v i, i ≤ d → shortest_path_length g start v i →
                is_Some (parent !! v)) ∧
        (∀ v, is_Some (parent !! v) →
              ∃ i, i ≤ S d ∧ shortest_path_length g start v i)) ∧
  (¬ reachable g start goal →
   ∀ v, reachable g start v → is_Some (parent !! v)).
Proof.
  intros Hsq Hs Hrun.
  destruct (bfs_layers_final _ _ _ _ _ _ _ Hsq Hrun) as [-> Hfin].
  split; [by eapply final_parent_start|].
  split; [by eapply final_parent_root|].
  split; [|split; [|split; [|split; [|split; [|split]]]]].
  - intros v u Hv.
    by destruct (final_parent_step _ _ _ _ _ Hfin v u Hv) as (? & ? & _).
  - intros node st nb v p Hdom Hv.
    destruct (discover_parent_mono node st nb Hdom) as [Hsub ?].
    split; [|done]. by eapply lookup_weaken.
  - intros fuel0 st ls g0 ls' parent' g1 v p Hdom Hwhile Hv.
    pose proof (bfs_while_parent_mono _ _ _ _ _ _ _ Hdom Hwhile) as Hsub.
    by eapply lookup_weaken.
  - intros v. by eapply final_recorded_iff.
  - intros v Hv.
    destruct (final_parent_dist _ _ _ _ _ Hfin v Hv) as (i & Hw & _).
    by eapply walk_reachable.
  - intros d Hd%shortest_dist.
    destruct (final_found_structure _ _ _ _ _ Hfin d (proj1 Hd))
      as (init & pre & post & _ & _ & _ & Hlayer & _ & _ & Hrec).
    assert (Hgoal : dist g start goal (length init)).
    { apply Hlayer. set_solver. }
    pose proof (dist_inj _ _ _ _ _ Hd Hgoal) as ->.
    split.
    + intros v i Hi Hv%shortest_dist. apply Hrec. left. by exists i.
    + intros v [(i & Hi & Hv)|[Hv _]]%Hrec.
      * exists i. split; [lia|]. by apply dist_shortest.
      * exists (S (length init)). split; [lia|]. by apply dist_shortest.
  - intros Hno v [k Hk]%reachable_walk.
    eapply final_exhaustive; [done| |done].
    intros j Hj. apply Hno. by eapply walk_reachable.
Qed.

Lemma parent_map_first_discovery_witness :
  shortest_path_length maze3 (0, 0)%Z (1, 1)%Z 2 ∧
  maze3_center_parent !! (0, 0)%Z = Some None ∧
  (∀ v, maze3_center_parent !! v = Some None → v = (0, 0)%Z) ∧
  (∀ v u, maze3_center_parent !! v = Some (Some u) →
          v ∈ open_nbrs maze3 u ∧
          ∃ l1 l2, concat maze3_center_layers = l1 ++ u :: l2 ∧
                   ∀ w, w ∈ l1 → v ∉ open_nbrs maze3 w) ∧
  (∀ node st nb v p,
     dom (st_parent st) ⊆ st_visited st →
     st_parent st !! v = Some p →
     st_parent (discover node st nb) !! v = Some p ∧
     dom (st_parent (discover node st nb))
       ⊆ st_visited (discover node st nb)) ∧
  (∀ fuel0 st ls g0 ls' parent' g1 v p,
     dom (st_parent st) ⊆ st_visited st →
     bfs_while fuel0 (1, 1)%Z st ls g0 = Done ((ls', parent'), g1) →
     st_parent st !! v = Some p → parent' !! v = Some p) ∧
  (∀ v, is_Some (maze3_center_parent !! v) ↔
        v = (0, 0)%Z ∨
        ∃ u, u ∈ concat maze3_center_layers ∧ u ≠ (1, 1)%Z ∧
             v ∈ open_nbrs maze3 u) ∧
  (∀ v, is_Some (maze3_center_parent !! v) → reachable maze3 (0, 0)%Z v) ∧
  (∀ d, shortest_path_length maze3 (0, 0)%Z (1, 1)%Z d →
        (∀ v i, i ≤ d → shortest_path_length maze3 (0, 0)%Z v i →
                is_Some (maze3_center_parent !! v)) ∧
        (∀ v, is_Some (maze3_center_parent !! v) →
              ∃ i, i ≤ S d ∧ shortest_path_length maze3 (0, 0)%Z v i)) ∧
  (¬ reachable maze3 (0, 0)%Z (1, 1)%Z →
   ∀ v, reachable maze3 (0, 0)%Z v → is_Some (maze3_center_parent !! v)).
Proof.
  split;
    [apply (maze3_distances 2 [(2, 0); (1, 1); (0, 2)]%Z); [done|set_solver]|].
  apply (parent_map_first_discovery maze3 (0, 0)%Z (1, 1)%Z 11
           maze3_center_layers maze3_center_parent maze3).
  - apply maze3_square.
  - solve_passable.
  - apply maze3_center_run.
Defined.

(** * Path reconstruction *)

(** C2: for the parent map returned by the search on a square grid with
    passable start and goal, and a loop budget above the size of the map:
    an unreachable goal has no entry; a goal without entry gives the empty
    path; otherwise the path starts at start, ends at goal, repeats no cell,
    and each consecutive pair is a 4-directional step between two passable
    cells. *)
Theorem reconstruct_path_correct g start goal fuel layers parent g' fuel' :
  square g → passable g start → passable g goal →
  _bfs_layers fuel start goal g = Done ((layers, parent), g') →
  size parent < fuel' →
  (¬ reachable g start goal → goal ∉ dom parent) ∧
  (goal ∉ dom parent → _reconstruct_path fuel' parent start goal = Done []) ∧
  (goal ∈ dom parent →
   ∃ path, _reconstruct_path fuel' parent start goal = Done path ∧
           head path = Some start ∧ last path = Some goal ∧
           NoDup path ∧ legal_moves g path).
Proof.
  intros Hsq Hs Hg Hrun Hfuel.
  destruct (bfs_layers_final _ _ _ _ _ _ _ Hsq Hrun) as [-> Hfin].
  split; [|split].
  - intros Hno Hin%elem_of_dom. apply Hno.
    destruct (final_parent_dist _ _ _ _ _ Hfin goal Hin) as (i & Hw & _).
    by eapply walk_reachable.
  - intros Hnot. unfold _reconstruct_path. by rewrite decide_False.
  - intros Hin%elem_of_dom.
    destruct (reconstruct_path_final _ _ _ _ _ Hfin fuel' Hs Hin Hfuel)
      as (path & j & ? & ? & ? & ? & ? & _).
    by exists path.
Qed.

Lemma reconstruct_path_correct_witness :
  (¬ reachable maze3 (0, 0)%Z (2, 2)%Z → (2, 2)%Z ∉ dom maze3_parent) ∧
  ((2, 2)%Z ∉ dom maze3_parent →
   _reconstruct_path 10 maze3_parent (0, 0)%Z (2, 2)%Z = Done []) ∧
  ((2, 2)%Z ∈ dom maze3_parent →
   ∃ path, _reconstruct_path 10 maze3_parent (0, 0)%Z (2, 2)%Z = Done path ∧
           head path = Some (0, 0)%Z ∧ last path = Some (2, 2)%Z ∧
           NoDup path ∧ legal_moves maze3 path).
Proof.
  apply (reconstruct_path_correct maze3 (0, 0)%Z (2, 2)%Z 11
           maze3_layers maze3_parent maze3 10).
  - apply maze3_square.
  - solve_passable.
  - solve_passable.
  - apply maze3_run.
  - vm_compute. lia.
Defined.

(** The path of the specification's example. *)
Example reconstruct_path_maze3 :
  _reconstruct_path 10 maze3_parent (0, 0)%Z (2, 2)%Z
  = Done [(0, 0); (1, 0); (2, 0); (2, 1); (2, 2)]%Z.
Proof. vm_compute. reflexivity. Qed.

(** * Maze generation *)

Section WithRandom.
Context `{Random rng}.

Lemma length_generate_row wall_prob n (r : rng) :
  length (generate_row wall_prob n r).1 = n.
Proof.
  revert r. induction n as [|n IH]; intros r; simpl; [done|].
  destruct (rng_random r) as [u r1]. specialize (IH r1).
  destruct (generate_row wall_prob n r1) as [row r2]. simpl in *. lia.
Qed.

Lemma generate_rows_shape wall_prob n rows (r : rng) :
  length (generate_rows wall_prob n rows r).1 = rows ∧
  Forall (λ row : list bool, length row = n) (generate_rows wall_prob n rows r).1.
Proof.
  revert r. induction rows as [|rows IH]; intros r; simpl; [by split|].
  pose proof (length_generate_row wall_prob n r) as Hrow.
  destruct (generate_row wall_prob n r) as [row r1]. specialize (IH r1).
  destruct (generate_rows wall_prob n rows r1) as [maze r2]. simpl in *.
  destruct IH as [? ?]. split; [lia|]. by constructor.
Qed.

(** Whatever the arguments, the generator returns a square grid of side
    [max n 0]. *)
Lemma generate_maze_square n wall_prob seed (r : rng) :
  length (_generate_maze n wall_prob seed r).1 = Z.to_nat n ∧
  square (_generate_maze n wall_prob seed r).1.
Proof.
  unfold _generate_maze, square.
  destruct (generate_rows_shape wall_prob (Z.to_nat n) (Z.to_nat n)
              (match seed with Some a => rng_seed a | None => r end))
    as [Hlen Hrows].
  split; [done|]. by rewrite Hlen.
Qed.

(** C6: two calls with the same size, wall probability and seed return the
    same grid: the second of two calls made one after the other returns the
    grid of the first, and so does a call made with the generator in any
    other state [r2]. *)
Theorem generate_maze_deterministic n wall_prob seed (r1 r2 : rng) :
  let first := _generate_maze n wall_prob (Some seed) r1 in
  let second := _generate_maze n wall_prob (Some seed) first.2 in
  second.1 = first.1 ∧
  (_generate_maze n wall_prob (Some seed) r2).1 = first.1.
Proof.
  intros first second. subst first second. unfold _generate_maze.
  destruct (generate_rows wall_prob (Z.to_nat n) (Z.to_nat n) (rng_seed seed))
    as [maze r']. by split.
Qed.

(** * The random walker *)

Lemma rw_updater_frame random_running dt s (r : rng) g x g' :
  rw_updater random_running dt s r g = Done (x, g') → g' = g.
Proof.
  unfold rw_updater. intros Hrun.
  destruct (random_running <? 0.5)%float.
  { unfold mret, M_ret in Hrun. by simplify_eq. }
  cbn [rw_pos rw_last_move_time rw_step_interval] in Hrun.
  destruct (rw_last_move_time s + dt <? rw_step_interval s)%float.
  { unfold mret, M_ret in Hrun. by simplify_eq. }
  unfold mbind, M_bind in Hrun.
  destruct (_neighbors (rw_pos s) g) as [[nbs g1]| |] eqn:Hn; [|done..].
  apply neighbors_frame in Hn as ->.
  destruct nbs as [|nb nbs].
  { unfold mret, M_ret in Hrun. by simplify_eq. }
  unfold lift in Hrun.
  destruct (choice (nb :: nbs) r) as [[c r']| |]; [|done..].
  unfold mret, M_ret in Hrun. by simplify_eq.
Qed.

(** C7: on a square grid, with a generator whose [_randbelow(n)] stays
    below [n], a call of the updater returns; the walker stays where it is
    when its cell has no passable neighbour; when the step is due and a
    passable neighbour exists the new position is a passable cell of the
    grid one 4-directional step away; and in every case the position is
    either unchanged or such a neighbour. *)
Theorem random_walk_step g random_running dt (s : rw_state) (r : rng) :
  square g →
  (∀ n r0, 0 < n → (rng_randbelow n r0).1 < n) →
  ∃ s' r',
    rw_updater random_running dt s r g = Done ((s', r'), g) ∧
    ((¬ ∃ v, adjacent (rw_pos s) v ∧ passable g v) → rw_pos s' = rw_pos s) ∧
    ((random_running <? 0.5)%float = false →
     (rw_last_move_time s + dt <? rw_step_interval s)%float = false →
     (∃ v, adjacent (rw_pos s) v ∧ passable g v) →
     adjacent (rw_pos s) (rw_pos s') ∧ passable g (rw_pos s')) ∧
    (rw_pos s' = rw_pos s ∨
     adjacent (rw_pos s) (rw_pos s') ∧ passable g (rw_pos s')).
Proof.
  intros Hsq Hbelow. unfold rw_updater.
  destruct (random_running <? 0.5)%float eqn:Hrunning.
  { exists s, r. split; [done|]. split; [done|]. split; [done|by left]. }
  cbn [rw_pos rw_last_move_time rw_step_interval].
  destruct (rw_last_move_time s + dt <? rw_step_interval s)%float eqn:Hdue.
  { eexists _, r. split; [done|]. simpl. split; [done|]. split; [done|by left]. }
  unfold mbind, M_bind. rewrite neighbors_square by done.
  destruct (open_nbrs g (rw_pos s)) as [|nb nbs] eqn:Hnbs.
  { eexists _, r. split; [done|]. simpl. split; [done|]. split; [|by left].
    intros _ _ (v & Hv). apply elem_of_open_nbrs in Hv.
    rewrite Hnbs in Hv. by apply elem_of_nil in Hv. }
  unfold lift, choice.
  pose proof (Hbelow (length (nb :: nbs)) r) as Hi.
  destruct (rng_randbelow (length (nb :: nbs)) r) as [i r'].
  destruct (lookup_lt_is_Some_2 (nb :: nbs) i) as [c Hc].
  { apply Hi. simpl. lia. }
  rewrite Hc. eexists _, r'. split; [done|]. simpl.
  assert (Hstep : adjacent (rw_pos s) c ∧ passable g c).
  { apply elem_of_open_nbrs. rewrite Hnbs. by eapply list_elem_of_lookup_2. }
  split; [|split; [done|by right]].
  intros Hnone. destruct Hnone. by exists c.
Qed.
End WithRandom.

Lemma counter_rng_below n r0 : 0 < n → (rng_randbelow n r0).1 < n.
Proof. intros Hn. simpl. apply Nat.mod_upper_bound. lia. Qed.

Lemma random_walk_step_witness :
  ∃ s' r',
    rw_updater 1%float 0.5%float (RwState (0, 0)%Z 0%float 0.25%float) 5 maze3
    = Done ((s', r'), maze3) ∧
    ((¬ ∃ v, adjacent (0, 0)%Z v ∧ passable maze3 v) → rw_pos s' = (0, 0)%Z) ∧
    ((1 <? 0.5)%float = false →
     (0 + 0.5 <? 0.25)%float = false →
     (∃ v, adjacent (0, 0)%Z v ∧ passable maze3 v) →
     adjacent (0, 0)%Z (rw_pos s') ∧ passable maze3 (rw_pos s')) ∧
    (rw_pos s' = (0, 0)%Z ∨
     adjacent (0, 0)%Z (rw_pos s') ∧ passable maze3 (rw_pos s')).
Proof.
  apply (random_walk_step (rng := nat) maze3 1%float 0.5%float
           (RwState (0, 0)%Z 0%float 0.25%float) 5).
  - apply maze3_square.
  - apply counter_rng_below.
Defined.

(** With no seed the grid depends on the state the generator is in. *)
Example generate_maze_unseeded :
  (_generate_maze 2 0.5%float None 0).1 ≠ (_generate_maze 2 0.5%float None 1).1.
Proof. vm_compute. discriminate. Qed.

(** * Input validation *)

(** C4 as stated fails: nothing is validated.  The search started on a wall
    cell proceeds and returns layers, and the generator called with a
    negative size and a wall probability of [1.5] returns the empty grid. *)
Lemma invalid_inputs_are_accepted :
  ¬ passable maze_wall (0, 0)%Z ∧
  _bfs_layers 6 (0, 0)%Z (1, 1)%Z maze_wall
  = Done (([[(0, 0)]; [(1, 0); (0, 1)]; [(1, 1)]]%Z,
           list_to_map [((0, 0), None); ((1, 0), Some (0, 0));
                        ((0, 1), Some (0, 0)); ((1, 1), Some (1, 0))]%Z),
          maze_wall) ∧
  _generate_maze (-3) 1.5%float (Some 7%Z) 0 = ([], 7).
Proof.
  split; [|split].
  - intros [_ Hopen]. vm_compute in Hopen. discriminate.
  - vm_compute. reflexivity.
  - vm_compute. reflexivity.
Qed.

(** C4, amended: the code validates nothing and raises no error of its
    own.  For every size, wall probability and seed [_generate_maze] returns
    a square grid of side [max n 0], the empty grid when [n <= 0]; and on a
    square grid [_bfs_layers] returns layers and a parent map for every
    start and goal, inside the grid or not, on a wall or not, with the start
    recorded as the root. *)
Theorem inputs_are_not_validated `{Random rng} n wall_prob seed (r : rng)
    g start goal fuel :
  square g →
  S (S (length g * length g)) ≤ fuel →
  (length (_generate_maze n wall_prob seed r).1 = Z.to_nat n ∧
   square (_generate_maze n wall_prob seed r).1 ∧
   ((n ≤ 0)%Z → (_generate_maze n wall_prob seed r).1 = [])) ∧
  ∃ layers parent,
    _bfs_layers fuel start goal g = Done ((layers, parent), g) ∧
    parent !! start = Some None.
Proof.
  intros Hsq Hfuel. split.
  - destruct (generate_maze_square n wall_prob seed r) as [Hlen Hsquare].
    split; [done|]. split; [done|]. intros Hn.
    apply length_zero_iff_nil. rewrite Hlen. lia.
  - destruct (bfs_layers_reach g start goal fuel Hsq Hfuel)
      as (layers & parent & Hrun & Hfin).
    exists layers, parent. split; [done|]. by eapply final_parent_start.
Qed.

Lemma inputs_are_not_validated_witness :
  (length (_generate_maze (-3) 1.5%float (Some 7%Z) 0).1 = Z.to_nat (-3) ∧
   square (_generate_maze (-3) 1.5%float (Some 7%Z) 0).1 ∧
   ((-3 ≤ 0)%Z → (_generate_maze (-3) 1.5%float (Some 7%Z) 0).1 = [])) ∧
  ∃ layers parent,
    _bfs_layers 6 (0, 0)%Z (5, 5)%Z maze_wall
    = Done ((layers, parent), maze_wall) ∧
    parent !! (0, 0)%Z = Some None.
Proof.
  apply (inputs_are_not_validated (rng := nat)).
  - repeat constructor.
  - simpl. lia.
Defined.

(** * The maze is only read *)

Lemma solve_maze_frame fuel n g x g' :
  solve_maze fuel n g = Done (x, g') →
  ∃ g1, maze_set 0 0 true g = Done (tt, g1) ∧
        maze_set (n - 1) (n - 1) true g1 = Done (tt, g').
Proof.
  unfold solve_maze, mbind, M_bind. cbn [fst snd]. intros Hrun.
  destruct (maze_set 0 0 true g) as [[[] g1]| |]; [|done..].
  destruct (maze_set (n - 1) (n - 1) true g1) as [[[] g2]| |] eqn:Hgoal;
    [|done..].
  destruct (_bfs_layers fuel (0, 0)%Z (n - 1, n - 1)%Z g2)
    as [[[layers parent] g3]| |] eqn:Hbfs; [|done..].
  apply bfs_layers_frame in Hbfs as ->.
  unfold lift in Hrun.
  destruct (_reconstruct_path fuel parent (0, 0)%Z (n - 1, n - 1)%Z);
    [|done..].
  unfold mret, M_ret in Hrun. injection Hrun as <- <-. by exists g1.
Qed.

(** C9: whenever [_neighbors], [_bfs_layers], [_reconstruct_path] (which is
    not even handed the maze) or a call of the random-walk updater returns,
    the maze is the one the call started with; and the maze at the end of
    the scene's computation is the generated one after the two assignments
    that force the start and the goal free. *)
Theorem helpers_leave_grid_unchanged `{Random rng} (g : Grid) :
  (∀ node nbs g', _neighbors node g = Done (nbs, g') → g' = g) ∧
  (∀ fuel start goal res g',
     _bfs_layers fuel start goal g = Done (res, g') → g' = g) ∧
  (∀ fuel parent start goal path g',
     lift (_reconstruct_path fuel parent start goal) g = Done (path, g') →
     g' = g) ∧
  (∀ random_running dt s (r : rng) res g',
     rw_updater random_running dt s r g = Done (res, g') → g' = g) ∧
  (∀ fuel n res g',
     solve_maze fuel n g = Done (res, g') →
     ∃ g1, maze_set 0 0 true g = Done (tt, g1) ∧
           maze_set (n - 1) (n - 1) true g1 = Done (tt, g')).
Proof.
  split; [|split; [|split; [|split]]].
  - intros node nbs g'. apply neighbors_frame.
  - intros fuel start goal res g'. apply bfs_layers_frame.
  - intros fuel parent start goal path g'. unfold lift.
    destruct (_reconstruct_path fuel parent start goal); [|done..].
    intros. by simplify_eq.
  - intros random_running dt s r res g'. apply rw_updater_frame.
  - intros fuel n res g'. apply solve_maze_frame.
Qed.

(** * The scene's computation

    The hypotheses of the theorems above hold where [construct] calls the
    search: the generated maze is square, and the two assignments make the
    start and the goal passable. *)

Lemma maze_set_inv x y b g g' :
  maze_set x y b g = Done (tt, g') →
  ∃ j row i, py_index g y = Some j ∧ g !! j = Some row ∧
             py_index row x = Some i ∧ g' = <[j := <[i := b]> row]> g.
Proof.
  unfold maze_set. intros Hset.
  destruct (py_index g y) as [j|] eqn:Hj; [|done].
  destruct (g !! j) as [row|] eqn:Hrow; [|done].
  destruct (py_index row x) as [i|] eqn:Hi; [|done].
  exists j, row, i. by simplify_eq.
Qed.

Lemma py_index_in_range {A} (l : list A) (i : Z) :
  (0 ≤ i < Z.of_nat (length l))%Z → py_index l i = Some (Z.to_nat i).
Proof.
  intros Hi. unfold py_index.
  destruct (Z.leb_spec 0 i); [|lia].
  destruct (Z.ltb_spec i (Z.of_nat (length l))); [done|lia].
Qed.

Lemma maze_set_square x y b g g' :
  square g → maze_set x y b g = Done (tt, g') →
  square g' ∧ length g' = length g.
Proof.
  intros Hsq (j & row & i & _ & Hrow & _ & ->)%maze_set_inv.
  unfold square. rewrite length_insert. split; [|done].
  apply Forall_insert; [done|]. rewrite length_insert.
  eapply (proj1 (Forall_forall _ _) Hsq), list_elem_of_lookup_2, Hrow.
Qed.

Lemma maze_set_returns x y b g :
  square g → in_bounds g (x, y) → ∃ g', maze_set x y b g = Done (tt, g').
Proof.
  intros Hsq [Hx Hy]. simpl in *. unfold maze_set.
  rewrite py_index_in_range by done.
  destruct (lookup_lt_is_Some_2 g (Z.to_nat y)) as [row Hrow]; [lia|].
  rewrite Hrow.
  assert (Hlen : length row = length g).
  { eapply (proj1 (Forall_forall _ _) Hsq), list_elem_of_lookup_2, Hrow. }
  rewrite py_index_in_range by lia. eauto.
Qed.

Lemma maze_set_passable x y g g' :
  square g → in_bounds g (x, y) →
  maze_set x y true g = Done (tt, g') → passable g' (x, y).
Proof.
  intros Hsq [Hx Hy] Hset. simpl in *.
  destruct (maze_set_square _ _ _ _ _ Hsq Hset) as [_ Hlen].
  apply maze_set_inv in Hset as (j & row & i & Hj & Hrow & Hi & ->).
  assert (Hrowlen : length row = length g).
  { eapply (proj1 (Forall_forall _ _) Hsq), list_elem_of_lookup_2, Hrow. }
  rewrite py_index_in_range in Hj by done.
  rewrite py_index_in_range in Hi by lia. simplify_eq.
  split; [split; simpl; lia|]. simpl.
  rewrite py_get_nonneg by lia.
  rewrite list_lookup_insert_eq by lia. simpl.
  rewrite py_get_nonneg by lia.
  by rewrite list_lookup_insert_eq by lia.
Qed.

Lemma maze_set_keeps_passable x y g g' c :
  square g → passable g c →
  maze_set x y true g = Done (tt, g') → passable g' c.
Proof.
  intros Hsq [[Hcx Hcy] Hc] Hset.
  destruct (maze_set_square _ _ _ _ _ Hsq Hset) as [_ Hlen].
  apply maze_set_inv in Hset as (j & row & i & _ & Hrow & _ & ->).
  split; [split; lia|].
  rewrite py_get_nonneg in Hc |- * by lia.
  destruct (decide (j = Z.to_nat c.2)) as [->|Hne].
  - rewrite list_lookup_insert_eq by (by eapply lookup_lt_Some).
    rewrite Hrow in Hc. simpl in *.
    rewrite py_get_nonneg in Hc |- * by lia.
    destruct (decide (i = Z.to_nat c.1)) as [->|Hne].
    + rewrite list_lookup_insert_eq; [done|]. by eapply lookup_lt_Some.
    + by rewrite list_lookup_insert_ne.
  - by rewrite list_lookup_insert_ne.
Qed.

Lemma final_parent_size g s goal layers parent :
  bfs_final g s goal layers parent → size parent ≤ S (length g * length g).
Proof.
  intros Hfin.
  destruct (final_config _ _ _ _ _ Hfin) as (c & HR & <- & _).
  pose proof (Reach_Inv _ _ _ _ HR) as HI.
  assert (Hdom : dom (c_parent c) = list_to_set (C := gset Cell) (seen c)).
  { apply set_eq. intros v.
    by rewrite elem_of_dom, (inv_dom _ _ _ _ HI), (inv_visited _ _ _ _ HI),
         elem_of_list_to_set. }
  rewrite <- (size_dom (D := gset Cell)), Hdom.
  rewrite size_list_to_set by apply (inv_nodup _ _ _ _ HI).
  by eapply Inv_seen_bound.
Qed.

(** On a square maze of side [n >= 1], with budget [n*n + 2], the scene's
    computation returns: the maze it leaves is square with start and goal
    passable, and the path is empty or leads from start to goal by legal
    moves without repeating a cell. *)
Lemma solve_maze_returns fuel n g :
  square g → Z.of_nat (length g) = n → (1 ≤ n)%Z →
  S (S (length g * length g)) ≤ fuel →
  ∃ layers parent path g',
    solve_maze fuel n g = Done ((layers, parent, path), g') ∧
    square g' ∧ passable g' (0, 0)%Z ∧ passable g' (n - 1, n - 1)%Z ∧
    (path = [] ∨
     head path = Some (0, 0)%Z ∧ last path = Some (n - 1, n - 1)%Z ∧
     NoDup path ∧ legal_moves g' path).
Proof.
  intros Hsq Hn Hn1 Hfuel. unfold solve_maze, mbind, M_bind. cbn [fst snd].
  destruct (maze_set_returns 0 0 true g Hsq) as [g1 H1].
  { split; simpl; lia. }
  rewrite H1.
  destruct (maze_set_square _ _ _ _ _ Hsq H1) as [Hsq1 Hlen1].
  destruct (maze_set_returns (n - 1) (n - 1) true g1 Hsq1) as [g2 H2].
  { split; simpl; lia. }
  rewrite H2.
  destruct (maze_set_square _ _ _ _ _ Hsq1 H2) as [Hsq2 Hlen2].
  assert (Hstart : passable g2 (0, 0)%Z).
  { apply (maze_set_keeps_passable (n - 1) (n - 1) g1 g2 _ Hsq1); [|done].
    apply (maze_set_passable 0 0 g g1 Hsq); [|done]. split; simpl; lia. }
  assert (Hgoal : passable g2 (n - 1, n - 1)%Z).
  { apply (maze_set_passable (n - 1) (n - 1) g1 g2 Hsq1); [|done].
    split; simpl; lia. }
  destruct (bfs_layers_reach g2 (0, 0)%Z (n - 1, n - 1)%Z fuel Hsq2)
    as (layers & parent & Hrun & Hfin).
  { rewrite Hlen2, Hlen1. done. }
  rewrite Hrun.
  pose proof (final_parent_size _ _ _ _ _ Hfin) as Hsize.
  assert (Hbudget : size parent < fuel) by (rewrite Hlen2, Hlen1 in Hsize; lia).
  unfold lift.
  destruct (decide ((n - 1, n - 1)%Z ∈ dom parent)) as [Hin|Hnot].
  - apply elem_of_dom in Hin.
    destruct (reconstruct_path_final _ _ _ _ _ Hfin fuel Hstart Hin Hbudget)
      as (path & j & -> & ? & ? & ? & ? & _).
    exists layers, parent, path, g2. split; [done|]. auto 10.
  - unfold _reconstruct_path. rewrite decide_False by done.
    exists layers, parent, [], g2. split; [done|]. auto.
Qed.

(** [construct] itself, for any generator: the 12×12 maze is searched and
    the computation returns. *)
Lemma construct_returns `{Random rng} fuel (r : rng) :
  146 ≤ fuel →
  ∃ layers parent path maze,
    (construct fuel r).1 = Done ((layers, parent, path), maze) ∧
    square maze ∧ length maze = 12 ∧
    passable maze (0, 0)%Z ∧ passable maze (11, 11)%Z.
Proof.
  intros Hfuel. unfold construct.
  destruct (generate_maze_square GRID_SIZE WALL_PROB (Some SEED) (rng_seed SEED))
    as [Hlen Hsq].
  destruct (_generate_maze GRID_SIZE WALL_PROB (Some SEED) (rng_seed SEED))
    as [maze r1]. simpl in *.
  change (Z.to_nat GRID_SIZE) with 12 in Hlen.
  destruct (solve_maze_returns fuel GRID_SIZE maze Hsq)
    as (layers & parent & path & g' & Hrun & Hsq' & Hs & Hg & _).
  { by rewrite Hlen. }
  { done. }
  { rewrite Hlen. simpl. lia. }
  exists layers, parent, path, g'. split; [done|]. split; [done|].
  split; [|done].
  apply solve_maze_frame in Hrun as (g1 & H1 & H2).
  destruct (maze_set_square _ _ _ _ _ Hsq H1) as [Hsq1 Hlen1].
  destruct (maze_set_square _ _ _ _ _ Hsq1 H2) as [_ Hlen2]. lia.
Qed.

(** * Beyond the claims: the remaining code *)

(** ** The draws behind a generated maze *)

Section Draws.
Context `{Random rng}.

Lemma rng_skip_add a b (r : rng) : rng_skip (a + b) r = rng_skip b (rng_skip a r).
Proof. revert r. induction a as [|a IH]; intros r; simpl; [done|apply IH]. Qed.

Lemma nth_draw_skip a k (r : rng) : nth_draw k (rng_skip a r) = nth_draw (a + k) r.
Proof. unfold nth_draw. by rewrite rng_skip_add. Qed.

Lemma generate_row_draws wall_prob n (r : rng) :
  generate_row wall_prob n r
  = (map (λ k, (wall_prob <? nth_draw k r)%float) (seq 0 n), rng_skip n r).
Proof.
  revert r. induction n as [|n IH]; intros r; [done|].
  cbn [generate_row]. destruct (rng_random r) as [u r1] eqn:Hu.
  rewrite IH. cbn [seq map]. rewrite <- seq_shift, map_map.
  f_equal; [|by simpl; rewrite Hu].
  f_equal; [by unfold nth_draw; simpl; rewrite Hu|].
  apply map_ext. intros k. unfold nth_draw. simpl. by rewrite Hu.
Qed.

Lemma generate_rows_draws wall_prob n rows (r : rng) :
  generate_rows wall_prob n rows r
  = (map (λ j, map (λ i, (wall_prob <? nth_draw (j * n + i) r)%float) (seq 0 n))
       (seq 0 rows),
     rng_skip (rows * n) r).
Proof.
  revert r. induction rows as [|rows IH]; intros r; [done|].
  cbn [generate_rows]. rewrite generate_row_draws, IH.
  cbn [seq map]. rewrite <- seq_shift, map_map. f_equal.
  - f_equal. apply map_ext. intros j. apply map_ext. intros i.
    rewrite nth_draw_skip.
    by replace (n + (j * n + i)) with (S j * n + i) by lia.
  - by rewrite <- rng_skip_add.
Qed.

(** X1: the maze is filled row by row from consecutive draws: after the
    optional reseeding, cell [(x, y)] of a maze of side [n] is free exactly
    when draw number [y * n + x] exceeds the wall probability, and the
    call leaves the generator [n * n] draws further. *)
Theorem generate_maze_cells n wall_prob seed (r : rng) x y :
  x < Z.to_nat n → y < Z.to_nat n →
  let r0 := match seed with Some a => rng_seed a | None => r end in
  (_generate_maze n wall_prob seed r).1 !! y ≫= (λ row, row !! x)
  = Some (wall_prob <? nth_draw (y * Z.to_nat n + x) r0)%float ∧
  (_generate_maze n wall_prob seed r).2 = rng_skip (Z.to_nat n * Z.to_nat n) r0.
Proof.
  intros Hx Hy r0. unfold _generate_maze. fold r0.
  rewrite generate_rows_draws. cbn [fst snd]. split; [|done].
  rewrite list_lookup_fmap, lookup_seq_lt by done. simpl.
  by rewrite list_lookup_fmap, lookup_seq_lt by done.
Qed.
End Draws.

Lemma generate_maze_cells_witness :
  (_generate_maze 3 0.5%float (Some 7%Z) 0).1 !! 2 ≫= (λ row, row !! 1)
  = Some (0.5 <? nth_draw (2 * Z.to_nat 3 + 1) (rng_seed 7))%float ∧
  (_generate_maze 3 0.5%float (Some 7%Z) 0).2
  = rng_skip (Z.to_nat 3 * Z.to_nat 3) (rng_seed 7).
Proof.
  apply (generate_maze_cells (rng := nat) 3 0.5%float (Some 7%Z) 0 1 2);
    simpl; lia.
Defined.

(** ** Forcing a cell free *)

Lemma maze_set_other x y b g g' c :
  in_bounds g (x, y) → in_bounds g c → c ≠ (x, y) →
  maze_set x y b g = Done (tt, g') →
  py_get g' c.2 ≫= (λ row, py_get row c.1)
  = py_get g c.2 ≫= (λ row, py_get row c.1).
Proof.
  intros [Hx Hy] [Hcx Hcy] Hne Hset. simpl in *.
  apply maze_set_inv in Hset as (j & row & i & Hj & Hrow & Hi & ->).
  rewrite py_index_in_range in Hj by done. simplify_eq.
  rewrite !py_get_nonneg by lia.
  destruct (decide (Z.to_nat y = Z.to_nat c.2)) as [Heq|Hrows].
  - rewrite <- Heq, Hrow.
    rewrite list_lookup_insert_eq by (by eapply lookup_lt_Some). simpl.
    rewrite !py_get_nonneg by lia.
    destruct (decide (0 ≤ x < Z.of_nat (length row))%Z) as [Hin|Hout].
    + rewrite py_index_in_range in Hi by done. simplify_eq.
      rewrite list_lookup_insert_ne; [done|].
      intros Hcols. apply Hne. destruct c as [cx cy]. simpl in *.
      f_equal; lia.
    + unfold py_index in Hi.
      destruct (Z.leb_spec 0 x); [|lia].
      destruct (Z.ltb_spec x (Z.of_nat (length row))); [lia|done].
  - by rewrite list_lookup_insert_ne.
Qed.

(** X2: the assignment [maze[y][x] = True] on a cell inside a square maze
    succeeds, keeps the maze square and of the same side, makes the cell
    passable, and changes the passability of no other cell. *)
Theorem force_cell_passable x y g :
  square g → in_bounds g (x, y) →
  ∃ g', maze_set x y true g = Done (tt, g') ∧
        square g' ∧ length g' = length g ∧
        passable g' (x, y) ∧
        ∀ c, c ≠ (x, y) → passable g' c ↔ passable g c.
Proof.
  intros Hsq Hin.
  destruct (maze_set_returns x y true g Hsq Hin) as [g' Hset].
  destruct (maze_set_square _ _ _ _ _ Hsq Hset) as [Hsq' Hlen].
  exists g'. split; [done|]. split; [done|]. split; [done|].
  split; [exact (maze_set_passable x y g g' Hsq Hin Hset)|].
  intros c Hne. unfold passable, in_bounds. rewrite Hlen.
  split; intros [Hc Hopen]; (split; [done|]).
  - by rewrite <- (maze_set_other x y true g g' c Hin Hc Hne Hset).
  - by rewrite (maze_set_other x y true g g' c Hin Hc Hne Hset).
Qed.

Lemma force_cell_passable_witness :
  ∃ g', maze_set 0 0 true maze_wall = Done (tt, g') ∧
        square g' ∧ length g' = length maze_wall ∧
        passable g' (0, 0)%Z ∧
        ∀ c, c ≠ (0, 0)%Z → passable g' c ↔ passable maze_wall c.
Proof.
  apply force_cell_passable.
  - repeat constructor.
  - split; simpl; lia.
Defined.

(** ** [_neighbors] on a grid with rows of any length *)

Lemma maze_get_cell x y g :
  maze_get x y g
  = match py_get g y ≫= (λ row, py_get row x) with
    | Some b => Done (b, g)
    | None => Raise IndexError
    end.
Proof.
  unfold maze_get. destruct (py_get g y) as [row|]; [|done]. simpl.
  by destruct (py_get row x).
Qed.

Lemma neighbors_loop_ragged g x y ds neigh :
  neighbors_loop x y (Z.of_nat (length g)) ds neigh g
  = if decide (Exists (short_row g) (map (λ d : Z * Z, (x + d.1, y + d.2)%Z) ds))
    then Raise IndexError
    else Done (neigh ++ filter (passable g)
                          (map (λ d : Z * Z, (x + d.1, y + d.2)%Z) ds), g).
Proof.
  revert neigh. induction ds as [|[dx dy] ds IH]; intros neigh.
  - cbn [neighbors_loop map]. rewrite decide_False by (by intros ?%Exists_nil).
    unfold mret, M_ret. by rewrite filter_nil, app_nil_r.
  - cbn [neighbors_loop map fst snd]. rewrite filter_cons.
    destruct (decide (in_bounds g (x + dx, y + dy)%Z)) as [Hin|Hout].
    + assert (((0 <=? x + dx) && (x + dx <? Z.of_nat (length g))
               && ((0 <=? y + dy) && (y + dy <? Z.of_nat (length g))))%Z = true)
        as ->.
      { destruct Hin as [? ?]; simpl in *.
        repeat (apply andb_true_intro; split); lia. }
      unfold mbind, M_bind. rewrite maze_get_cell.
      destruct (py_get g (y + dy) ≫= (λ row, py_get row (x + dx)))
        as [b|] eqn:Hcell.
      * rewrite IH.
        assert (Hhead : ¬ short_row g (x + dx, y + dy)%Z).
        { intros [_ Hnone]. simpl in Hnone. congruence. }
        destruct (decide (Exists (short_row g)
                    (map (λ d : Z * Z, (x + d.1, y + d.2)%Z) ds))) as [Hex|Hex].
        -- rewrite decide_True; [done|]. by apply Exists_cons_tl.
        -- rewrite decide_False
             by (intros Hc; apply Exists_cons in Hc as [?|?]; done).
           destruct b.
           ++ rewrite decide_True by (by split). by rewrite <- app_assoc.
           ++ rewrite decide_False; [done|]. intros [_ Hopen]. simpl in Hopen.
              congruence.
      * rewrite decide_True; [done|]. apply Exists_cons_hd. by split.
    + assert (((0 <=? x + dx) && (x + dx <? Z.of_nat (length g))
               && ((0 <=? y + dy) && (y + dy <? Z.of_nat (length g))))%Z = false)
        as ->.
      { apply not_true_is_false. intros Htest. apply Hout.
        unfold in_bounds; simpl.
        repeat match goal with
               | Hand : (_ && _) = true |- _ => apply andb_prop in Hand; destruct Hand
               end. lia. }
      rewrite IH.
      destruct (decide (passable g (x + dx, y + dy)%Z)) as [[? _]|_]; [done|].
      destruct (decide (Exists (short_row g)
                  (map (λ d : Z * Z, (x + d.1, y + d.2)%Z) ds))) as [Hex|Hex].
      * rewrite decide_True; [done|]. by apply Exists_cons_tl.
      * rewrite decide_False; [done|].
        intros Hc. apply Exists_cons in Hc as [[? _]|?]; done.
Qed.

(** X8: on a maze whose rows may have any length, [_neighbors] raises
    [IndexError] exactly when one of the four cells around the node lies
    within the bounds it checks but beyond the end of its row; otherwise it
    returns the passable cells among the four, in the order right, left,
    down, up, and leaves the maze as it is. *)
Theorem neighbors_ragged g node :
  _neighbors node g
  = if decide (Exists (short_row g)
                 (map (λ d : Z * Z, (node.1 + d.1, node.2 + d.2)%Z) directions))
    then Raise IndexError
    else Done (open_nbrs g node, g).
Proof.
  destruct node as [x y]. unfold _neighbors, mbind, M_bind, maze_len.
  by rewrite neighbors_loop_ragged.
Qed.

(** ** More on the returned layers *)

Lemma NoDup_all_eq (s : Cell) (l : list Cell) :
  NoDup l → (∀ v, v ∈ l → v = s) → l ≠ [] → l = [s].
Proof.
  intros Hnd Hall Hne. destruct l as [|a [|b l]]; [done| |].
  - f_equal. apply Hall. by left.
  - assert (a = s) as -> by (apply Hall; set_solver).
    assert (b = s) as -> by (apply Hall; set_solver).
    apply NoDup_cons in Hnd as [Hnotin _]. set_solver.
Qed.

Section MoreResults.
Context (g : Grid) (s goal : Cell).
Context (layers : list (list Cell)) (parent : ParentMap).
Context (Hfinal : bfs_final g s goal layers parent).

(** Every layer but the last holds all the cells at its distance. *)
Lemma final_layers_exact i Li v :
  layers !! i = Some Li → S i < length layers → dist g s v i → v ∈ Li.
Proof.
  destruct Hfinal as [vis HR|L dq post new vis HR ->];
    pose proof (Reach_Inv _ _ _ _ HR) as HI; intros Hi Hlt Hd.
  - by apply (inv_layers _ _ _ _ HI i Li).
  - rewrite length_app in Hlt. simpl in Hlt.
    rewrite lookup_app_l in Hi by lia.
    by apply (inv_layers _ _ _ _ HI i Li).
Qed.

(** So does the last one when the goal was not found. *)
Lemma final_layers_exact_unreachable i Li v :
  (∀ j, ¬ walk g s goal j) →
  layers !! i = Some Li → dist g s v i → v ∈ Li.
Proof.
  destruct Hfinal as [vis HR|L dq post new vis HR ->];
    pose proof (Reach_Inv _ _ _ _ HR) as HI; intros Hno Hi Hd.
  - by apply (inv_layers _ _ _ _ HI i Li).
  - exfalso. assert (Hg : dist g s goal (length L)).
    { apply (inv_queue _ _ _ _ HI). simpl. set_solver. }
    destruct Hg as [Hg _]. by eapply Hno.
Qed.

Lemma final_layers_passable v :
  passable g s → v ∈ concat layers → passable g v.
Proof.
  intros Hs (Li & Hv & [i Hi]%list_elem_of_lookup)%elem_of_concat.
  destruct (final_layers_dist _ _ _ _ _ Hfinal i Li v Hi Hv) as [Hw _].
  by eapply walk_passable.
Qed.

Lemma final_layers_nonempty : Forall (λ Li : list Cell, Li ≠ []) layers.
Proof.
  destruct Hfinal as [vis HR|L dq post new vis HR ->];
    pose proof (Reach_Inv _ _ _ _ HR) as HI.
  - apply (inv_nonempty _ _ _ _ HI).
  - apply Forall_app. split; [apply (inv_nonempty _ _ _ _ HI)|].
    constructor; [|constructor]. by destruct dq.
Qed.

Lemma final_layers_length : 1 ≤ length layers ≤ S (length g * length g).
Proof.
  destruct Hfinal as [vis HR|L dq post new vis HR ->];
    pose proof (Reach_Inv _ _ _ _ HR) as HI;
    pose proof (Inv_layers_bound _ _ _ _ HI) as Hb; simpl in Hb.
  - split; [|lia]. destruct layers as [|L0 L]; [|simpl; lia].
    exfalso. assert (Hs : s ∈ vis).
    { apply (inv_dom _ _ _ _ HI). exists None. by apply (inv_root _ _ _ _ HI). }
    apply (inv_visited _ _ _ _ HI) in Hs. unfold seen in Hs. simpl in Hs.
    by apply elem_of_nil in Hs.
  - rewrite !length_app in *. simpl in *. lia.
Qed.

Lemma final_first_layer : layers !! 0 = Some [s].
Proof.
  pose proof final_layers_length as [Hlen _].
  destruct (lookup_lt_is_Some_2 layers 0) as [L0 H0]; [lia|].
  rewrite H0. f_equal. apply NoDup_all_eq.
  - eapply NoDup_concat_elem; [apply (final_nodup _ _ _ _ _ Hfinal)|].
    by eapply list_elem_of_lookup_2.
  - intros v Hv. apply (dist_O_inv g s).
    by apply (final_layers_dist _ _ _ _ _ Hfinal 0 L0).
  - eapply (proj1 (Forall_lookup _ _) final_layers_nonempty), H0.
Qed.
End MoreResults.

(** X6: on a square maze with a passable start, every returned layer but
    the last holds exactly the cells whose shortest path from the start has
    as many edges as the layer's index; when the goal is out of reach this
    is true of the last layer too. *)
Theorem bfs_layers_are_distance_classes g start goal fuel layers parent g' i Li v :
  square g → passable g start →
  _bfs_layers fuel start goal g = Done ((layers, parent), g') →
  layers !! i = Some Li →
  S i < length layers ∨ ¬ reachable g start goal →
  v ∈ Li ↔ shortest_path_length g start v i.
Proof.
  intros Hsq Hs Hrun Hi Hcase.
  destruct (bfs_layers_final _ _ _ _ _ _ _ Hsq Hrun) as [-> Hfin].
  split.
  - intros Hv. apply dist_shortest; [done|]. by eapply final_layers_dist.
  - intros Hd%shortest_dist. destruct Hcase as [Hlt|Hno].
    + by eapply final_layers_exact.
    + eapply final_layers_exact_unreachable; [done| |done..].
      intros j Hj. apply Hno. by eapply walk_reachable.
Qed.

Lemma bfs_layers_are_distance_classes_witness :
  (1, 1)%Z ∈ [(2, 0); (1, 1); (0, 2)]%Z
  ↔ shortest_path_length maze3 (0, 0)%Z (1, 1)%Z 2.
Proof.
  apply (bfs_layers_are_distance_classes maze3 (0, 0)%Z (2, 2)%Z 11
           maze3_layers maze3_parent maze3 2).
  - apply maze3_square.
  - solve_passable.
  - apply maze3_run.
  - reflexivity.
  - left. simpl. lia.
Defined.

(** X7: the search on a square maze returns at least one layer and at most
    one more than the maze has cells; the first layer is the start alone,
    and no returned layer is empty. *)
Theorem bfs_layers_shape g start goal fuel layers parent g' :
  square g →
  _bfs_layers fuel start goal g = Done ((layers, parent), g') →
  layers !! 0 = Some [start] ∧
  Forall (λ Li : list Cell, Li ≠ []) layers ∧
  1 ≤ length layers ≤ S (length g * length g).
Proof.
  intros Hsq Hrun.
  destruct (bfs_layers_final _ _ _ _ _ _ _ Hsq Hrun) as [-> Hfin].
  split; [by eapply final_first_layer|].
  split; [by eapply final_layers_nonempty|by eapply final_layers_length].
Qed.

Lemma bfs_layers_shape_witness :
  maze3_layers !! 0 = Some [(0, 0)%Z] ∧
  Forall (λ Li : list Cell, Li ≠ []) maze3_layers ∧
  1 ≤ length maze3_layers ≤ S (length maze3 * length maze3).
Proof.
  apply (bfs_layers_shape maze3 (0, 0)%Z (2, 2)%Z 11
           maze3_layers maze3_parent maze3).
  - apply maze3_square.
  - apply maze3_run.
Defined.

(** ** More on the rebuilt path *)

(** The path rebuilt for any recorded cell, not only for the goal. *)
Lemma reconstruct_path_to g s goal layers parent v fuel :
  bfs_final g s goal layers parent →
  passable g s → is_Some (parent !! v) → size parent < fuel →
  ∃ path j,
    _reconstruct_path fuel parent s v = Done path ∧
    path_from_to g s v path ∧ NoDup path ∧
    length path = S j ∧ dist g s v j ∧
    ∀ x, x ∈ path → passable g x.
Proof.
  intros Hfin Hs Hv Hfuel.
  destruct (final_parent_dist _ _ _ _ _ Hfin v Hv) as [j Hd].
  destruct (chain_exists _ _ _ _ _ Hfin j v Hd Hv) as [p Hch].
  destruct (chain_path _ _ _ _ _ Hfin v p Hs Hch)
    as (j' & Hlen & Hd' & Hhd & Hlast & Hmoves & Hnd & Hel).
  exists p, j'. unfold _reconstruct_path.
  rewrite decide_True by (by apply elem_of_dom).
  rewrite (reconstruct_loop_chain parent s v p Hch).
  - simpl. unfold mret, outcome_ret. rewrite reverse_involutive.
    split; [done|]. split; [done|]. split; [done|]. split; [done|].
    split; [done|]. intros x Hx.
    destruct (Hel x Hx) as (_ & i & _ & Hw & _). by eapply walk_passable.
  - eapply Nat.le_lt_trans; [|done].
    apply NoDup_length_size; [done|]. intros x Hx. by apply Hel.
Qed.

(** X4: the parent map of a search on a square maze with a passable start
    is a shortest-path tree: for every recorded cell, goal or not,
    [_reconstruct_path] returns a path of legal moves from the start to that
    cell that repeats no cell and has as few edges as any path between the
    two. *)
Theorem reconstruct_path_is_shortest g start goal fuel layers parent g' v fuel' :
  square g → passable g start →
  _bfs_layers fuel start goal g = Done ((layers, parent), g') →
  is_Some (parent !! v) →
  size parent < fuel' →
  ∃ path k,
    _reconstruct_path fuel' parent start v = Done path ∧
    path_from_to g start v path ∧ NoDup path ∧
    length path = S k ∧ shortest_path_length g start v k.
Proof.
  intros Hsq Hs Hrun Hv Hfuel.
  destruct (bfs_layers_final _ _ _ _ _ _ _ Hsq Hrun) as [-> Hfin].
  destruct (reconstruct_path_to _ _ _ _ _ v fuel' Hfin Hs Hv Hfuel)
    as (path & k & ? & ? & ? & ? & ? & _).
  exists path, k. split; [done|]. split; [done|]. split; [done|].
  split; [done|]. by apply dist_shortest.
Qed.

Lemma reconstruct_path_is_shortest_witness :
  ∃ path k,
    _reconstruct_path 10 maze3_parent (0, 0)%Z (1, 2)%Z = Done path ∧
    path_from_to maze3 (0, 0)%Z (1, 2)%Z path ∧ NoDup path ∧
    length path = S k ∧ shortest_path_length maze3 (0, 0)%Z (1, 2)%Z k.
Proof.
  apply (reconstruct_path_is_shortest maze3 (0, 0)%Z (2, 2)%Z 11
           maze3_layers maze3_parent maze3 (1, 2)%Z 10).
  - apply maze3_square.
  - solve_passable.
  - apply maze3_run.
  - vm_compute. eauto.
  - vm_compute. lia.
Defined.

(** The cells the loop appends, from [cur] towards the root: each is
    followed by its parent, and the last has no parent to go to. *)
Lemma reconstruct_loop_links fuel parent cur acc path :
  reconstruct_loop fuel parent cur acc = Done path →
  ∃ tail,
    path = acc ++ tail ∧ length tail < fuel ∧
    head tail = cur ∧
    (∀ i u v, tail !! i = Some u → tail !! S i = Some v →
              parent !! u = Some (Some v)) ∧
    (∀ l, last tail = Some l → mjoin (parent !! l) = None).
Proof.
  revert cur acc. induction fuel as [|fuel IH]; intros cur acc Hrun; [done|].
  cbn [reconstruct_loop] in Hrun. destruct cur as [c|].
  - apply IH in Hrun as (tail & -> & Hlen & Hhd & Hlinks & Hlast).
    exists (c :: tail). split; [by rewrite <- app_assoc|].
    split; [simpl; lia|]. split; [done|]. split.
    + intros [|i] u v Hu Hv; simpl in *.
      * simplify_eq. destruct tail as [|t tail]; [done|].
        simpl in *. simplify_eq.
        destruct (parent !! u) as [[w|]|]; simpl in *; by simplify_eq.
      * eauto.
    + intros l Hl. destruct tail as [|t tail].
      * simpl in *. by simplify_eq.
      * apply Hlast. by rewrite last_cons_cons in Hl.
  - simplify_eq. exists []. rewrite app_nil_r. split; [done|].
    split; [simpl; lia|]. split; [done|]. split; [by intros []|done].
Qed.

(** X5: whatever the parent map, a path that [_reconstruct_path] returns is
    empty exactly when the goal has no entry; otherwise it ends with the
    goal, each of its cells is the recorded parent of the next, and it
    begins with a cell whose entry is [None] or missing, which need not be
    [start]: the argument is not looked at. *)
Theorem reconstruct_path_follows_parents fuel parent start goal path :
  _reconstruct_path fuel parent start goal = Done path →
  (path = [] ↔ goal ∉ dom parent) ∧
  (goal ∈ dom parent →
   last path = Some goal ∧
   (∃ h, head path = Some h ∧ mjoin (parent !! h) = None) ∧
   (∀ i u v, path !! i = Some u → path !! S i = Some v →
             parent !! v = Some (Some u))).
Proof.
  unfold _reconstruct_path. intros Hrun.
  destruct (decide (goal ∈ dom parent)) as [Hin|Hnot].
  - destruct (reconstruct_loop fuel parent (Some goal) []) as [p| |] eqn:Hloop;
      [|done..].
    simpl in Hrun. unfold mret, outcome_ret in Hrun. simplify_eq.
    apply reconstruct_loop_links in Hloop
      as (tail & -> & _ & Hhd & Hlinks & Hlast).
    simpl. destruct tail as [|t tail]; [done|]. simpl in Hhd. simplify_eq.
    split; [split; [|done]|].
    { intros Hnil. apply (f_equal length) in Hnil.
      rewrite length_reverse in Hnil. done. }
    intros _. split; [by rewrite last_reverse|]. split.
    + destruct (last (goal :: tail)) as [l|] eqn:Hl.
      * exists l. split; [by rewrite head_reverse|]. by apply Hlast.
      * by apply last_None in Hl.
    + intros i u v Hu Hv.
      assert (Hlt := lookup_lt_Some _ _ _ Hv). rewrite length_reverse in Hlt.
      rewrite reverse_lookup in Hu by lia.
      rewrite reverse_lookup in Hv by lia.
      apply (Hlinks (length (goal :: tail) - S (S i))); [done|].
      by replace (S (length (goal :: tail) - S (S i)))
        with (length (goal :: tail) - S i) by lia.
  - simplify_eq. split; [done|]. done.
Qed.

Lemma reconstruct_path_follows_parents_witness :
  ([(0, 0); (1, 0); (2, 0); (2, 1); (2, 2)]%Z = [] ↔ (2, 2)%Z ∉ dom maze3_parent) ∧
  ((2, 2)%Z ∈ dom maze3_parent →
   last [(0, 0); (1, 0); (2, 0); (2, 1); (2, 2)]%Z = Some (2, 2)%Z ∧
   (∃ h, head [(0, 0); (1, 0); (2, 0); (2, 1); (2, 2)]%Z = Some h ∧
         mjoin (maze3_parent !! h) = None) ∧
   (∀ i u v, [(0, 0); (1, 0); (2, 0); (2, 1); (2, 2)]%Z !! i = Some u →
             [(0, 0); (1, 0); (2, 0); (2, 1); (2, 2)]%Z !! S i = Some v →
             maze3_parent !! v = Some (Some u))).
Proof.
  apply (reconstruct_path_follows_parents 10 maze3_parent (7, 7)%Z (2, 2)%Z).
  vm_compute. reflexivity.
Defined.

Lemma reconstruct_loop_rootless (fuel : nat) (parent : ParentMap) (c : Cell)
    (acc : list Cell) :
  (∀ c, is_Some (parent !! c) →
        ∃ u, parent !! c = Some (Some u) ∧ is_Some (parent !! u)) →
  is_Some (parent !! c) →
  reconstruct_loop fuel parent (Some c) acc = Timeout.
Proof.
  intros Hclosed. revert c acc.
  induction fuel as [|fuel IH]; intros c acc Hc; [done|].
  cbn [reconstruct_loop].
  destruct (Hclosed c Hc) as (u & -> & Hu). simpl. by apply IH.
Qed.

(** X9: on a parent map in which every recorded cell has a recorded
    parent (no entry is [None]), the loop of [_reconstruct_path] never ends
    for a recorded goal: no budget makes it return. *)
Theorem reconstruct_path_needs_root (fuel : nat) (parent : ParentMap)
    (start goal : Cell) :
  (∀ c, is_Some (parent !! c) →
        ∃ u, parent !! c = Some (Some u) ∧ is_Some (parent !! u)) →
  goal ∈ dom parent →
  _reconstruct_path fuel parent start goal = Timeout.
Proof.
  intros Hclosed Hin. unfold _reconstruct_path. rewrite decide_True by done.
  rewrite reconstruct_loop_rootless; [done..|]. by apply elem_of_dom.
Qed.

Lemma reconstruct_path_needs_root_witness :
  _reconstruct_path 50 {[(0, 0)%Z := Some (1, 0)%Z; (1, 0)%Z := Some (0, 0)%Z]}
    (0, 0)%Z (1, 0)%Z = Timeout.
Proof.
  apply reconstruct_path_needs_root.
  - intros c [x Hx].
    apply lookup_insert_Some in Hx as [[<- <-]|[_ Hx]].
    + exists (1, 0)%Z. split; [done|]. by eexists.
    + apply lookup_singleton_Some in Hx as [<- <-].
      exists (0, 0)%Z. split; [done|]. by eexists.
  - vm_compute. done.
Defined.

(** ** The drawn grid and its dictionaries *)

Lemma index_row_spec {A B} (f : A → B) (vg : list A) (j a len : nat)
    (d : gmap Cell B) (index : nat) :
  index + len ≤ length vg →
  ∃ d', index_row f vg j (seq a len) d index = Done (d', index + len) ∧
        ∀ c : Cell,
          d' !! c =
          if decide (c.2 = Z.of_nat j ∧
                     (Z.of_nat a ≤ c.1 < Z.of_nat (a + len))%Z)
          then f <$> vg !! (index + (Z.to_nat c.1 - a))
          else d !! c.
Proof.
  revert a d index. induction len as [|len IH]; intros a d index Hlen.
  - exists d. split; [simpl; by rewrite Nat.add_0_r|].
    intros c. rewrite decide_False; [done|]. lia.
  - cbn [seq index_row].
    destruct (lookup_lt_is_Some_2 vg index) as [grp Hgrp]; [lia|].
    rewrite Hgrp.
    destruct (IH (S a) (<[(Z.of_nat a, Z.of_nat j) := f grp]> d) (S index))
      as (d' & Hrun & Hd'); [lia|].
    exists d'. split; [rewrite Hrun; do 2 f_equal; lia|].
    intros c. rewrite Hd'.
    destruct (decide (c.2 = Z.of_nat j ∧
                      (Z.of_nat (S a) ≤ c.1 < Z.of_nat (S a + len))%Z))
      as [[Hr Hc]|Hnot].
    + rewrite decide_True by (split; [done|lia]).
      do 2 f_equal. lia.
    + destruct (decide (c = (Z.of_nat a, Z.of_nat j))) as [->|Hne].
      * rewrite lookup_insert_eq. simpl.
        rewrite decide_True by (split; [done|lia]).
        rewrite Nat2Z.id, Nat.sub_diag, Nat.add_0_r. by rewrite Hgrp.
      * rewrite lookup_insert_ne by done.
        rewrite decide_False; [done|]. intros [Hr Hc]. apply Hnot.
        split; [done|]. destruct c as [cx cy]. simpl in *.
        assert (cx ≠ Z.of_nat a) by (intros ->; apply Hne; by f_equal).
        lia.
Qed.

Lemma index_rows_spec {A B} (f : A → B) (vg : list A) (n b len : nat)
    (d : gmap Cell B) (index : nat) :
  index + len * n ≤ length vg →
  ∃ d', index_rows f vg n (seq b len) d index = Done (d', index + len * n) ∧
        ∀ c : Cell,
          d' !! c =
          if decide ((0 ≤ c.1 < Z.of_nat n)%Z ∧
                     (Z.of_nat b ≤ c.2 < Z.of_nat (b + len))%Z)
          then f <$> vg !! (index + (Z.to_nat c.2 - b) * n + Z.to_nat c.1)
          else d !! c.
Proof.
  revert b d index. induction len as [|len IH]; intros b d index Hlen.
  - exists d. split; [simpl; by rewrite Nat.add_0_r|].
    intros c. rewrite decide_False; [done|]. lia.
  - cbn [seq index_rows].
    destruct (index_row_spec f vg b 0 n d index) as (d1 & Hrow & Hd1); [lia|].
    rewrite Hrow. simpl.
    destruct (IH (S b) d1 (index + n)) as (d' & Hrun & Hd'); [lia|].
    exists d'. split; [rewrite Hrun; do 2 f_equal; lia|].
    intros c. rewrite Hd', Hd1.
    destruct (decide ((0 ≤ c.1 < Z.of_nat n)%Z ∧
                      (Z.of_nat (S b) ≤ c.2 < Z.of_nat (S b + len))%Z))
      as [[Hc Hr]|Hnot].
    + rewrite decide_True by lia. do 2 f_equal.
      replace (Z.to_nat c.2 - b) with (S (Z.to_nat c.2 - S b)) by lia. lia.
    + destruct (decide (c.2 = Z.of_nat b ∧ (Z.of_nat 0 ≤ c.1 < Z.of_nat (0 + n))%Z))
        as [[Hr Hc]|Hnot'].
      * rewrite decide_True by lia. do 2 f_equal.
        rewrite Hr, Nat2Z.id, Nat.sub_diag. lia.
      * rewrite decide_False; [done|]. lia.
Qed.

(** Both dictionaries, for any list of groups: the keys are the cells of
    the largest square that fits, the value at [(i, j)] comes from the
    group at position [j * m + i]. *)
Lemma index_squares_lookup {A B} (f : A → B) (vg : list A) :
  ∃ d, index_rows f vg (int_sqrt (length vg)) (seq 0 (int_sqrt (length vg))) ∅ 0
       = Done (d, int_sqrt (length vg) * int_sqrt (length vg)) ∧
       ∀ c : Cell,
         d !! c =
         if decide ((0 ≤ c.1 < Z.of_nat (int_sqrt (length vg)))%Z ∧
                    (0 ≤ c.2 < Z.of_nat (int_sqrt (length vg)))%Z)
         then f <$> vg !! (Z.to_nat c.2 * int_sqrt (length vg) + Z.to_nat c.1)
         else None.
Proof.
  set (m := int_sqrt (length vg)).
  assert (Hm : m * m ≤ length vg).
  { unfold m, int_sqrt. apply Nat.sqrt_specif. }
  destruct (index_rows_spec f vg m 0 m ∅ 0) as (d & Hrun & Hd); [simpl; lia|].
  exists d. split; [done|]. intros c. rewrite Hd.
  destruct (decide ((0 ≤ c.1 < Z.of_nat m)%Z ∧ (0 ≤ c.2 < Z.of_nat m)%Z)).
  - rewrite decide_True by lia. do 2 f_equal. lia.
  - rewrite decide_False by lia. apply lookup_empty.
Qed.

(** X10: for any list of groups, [_square_dict] and [_grid_centers] return
    without [IndexError]; with [m] the integer square root of the number of
    groups, their keys are exactly the cells [(i, j)] with [0 <= i, j < m],
    the value at [(i, j)] is taken from the group at position [j * m + i],
    and groups beyond the first [m * m] are ignored. *)
Theorem square_dict_lookup {L P} (get_center : Square → P)
    (grid_vgroup : list Group * L) (c : Cell) :
  let m := int_sqrt (length grid_vgroup.1) in
  let at_c := grp_square <$> grid_vgroup.1 !! (Z.to_nat c.2 * m + Z.to_nat c.1) in
  let inside := ((0 ≤ c.1 < Z.of_nat m)%Z ∧ (0 ≤ c.2 < Z.of_nat m)%Z) in
  ∃ d centers,
    _square_dict grid_vgroup = Done d ∧
    _grid_centers get_center grid_vgroup = Done centers ∧
    d !! c = (if decide inside then at_c else None) ∧
    centers !! c = (if decide inside then get_center <$> at_c else None).
Proof.
  intros m at_c inside. unfold _square_dict, _grid_centers.
  destruct (index_squares_lookup grp_square grid_vgroup.1) as (d & -> & Hd).
  destruct (index_squares_lookup (λ grp, get_center (grp_square grp))
              grid_vgroup.1) as (centers & -> & Hcenters).
  exists d, centers. split; [done|]. split; [done|].
  rewrite Hd, Hcenters. subst inside at_c m. split; [done|].
  destruct (decide _); [|done]. by rewrite <- option_fmap_compose.
Qed.

Lemma lookup_row_major {A} (h : nat → nat → A) (n b len i j : nat) :
  i < n → b ≤ j < b + len →
  flat_map (λ j, map (h j) (seq 0 n)) (seq b len) !! ((j - b) * n + i)
  = Some (h j i).
Proof.
  revert b. induction len as [|len IH]; intros b Hi Hj; [lia|].
  cbn [seq flat_map].
  destruct (decide (j = b)) as [->|Hne].
  - rewrite Nat.sub_diag. simpl.
    rewrite lookup_app_l by (by rewrite length_map, length_seq).
    by rewrite list_lookup_fmap, lookup_seq_lt.
  - rewrite lookup_app_r by (rewrite length_map, length_seq; nia).
    rewrite length_map, length_seq.
    replace ((j - b) * n + i - n) with ((j - S b) * n + i) by nia.
    apply IH; lia.
Qed.

Lemma length_row_major {A} (h : nat → nat → A) (n b len : nat) :
  length (flat_map (λ j, map (h j) (seq 0 n)) (seq b len)) = len * n.
Proof.
  revert b. induction len as [|len IH]; intros b; [done|].
  cbn [seq flat_map]. rewrite length_app, length_map, length_seq, IH. lia.
Qed.

Section BuildGrid.
Context (g : Grid) (Hsq : square g).

Lemma build_grid_row_spec j a len squares :
  j < length g → a + len ≤ length g →
  build_grid_row j (seq a len) squares g
  = Done (squares ++ map (group_at g j) (seq a len), g).
Proof.
  intros Hj. revert a squares.
  induction len as [|len IH]; intros a squares Ha.
  - simpl. unfold mret, M_ret. by rewrite app_nil_r.
  - cbn [seq build_grid_row map]. unfold mbind, M_bind.
    rewrite maze_get_square by (done || split; simpl; lia).
    rewrite IH by lia. rewrite <- app_assoc. do 3 f_equal.
    unfold group_at, square_of. simpl. do 2 f_equal.
    destruct (decide (passable g (Z.of_nat a, Z.of_nat j))).
    + by rewrite bool_decide_eq_true_2.
    + by rewrite bool_decide_eq_false_2.
Qed.

Lemma build_grid_rows_spec b len squares :
  b + len ≤ length g →
  build_grid_rows (length g) (seq b len) squares g
  = Done (squares ++ flat_map (λ j, map (group_at g j) (seq 0 (length g)))
                       (seq b len), g).
Proof.
  revert b squares. induction len as [|len IH]; intros b squares Hb.
  - simpl. unfold mret, M_ret. by rewrite app_nil_r.
  - cbn [seq build_grid_rows flat_map]. unfold mbind, M_bind.
    rewrite build_grid_row_spec by lia.
    rewrite IH by lia. by rewrite <- app_assoc.
Qed.

(** On a square maze [_build_grid] returns one group per cell, row by row,
    and [_square_dict] maps every cell of the maze to its square. *)
Lemma build_grid_dict {L} (label : L) :
  ∃ squares d,
    _build_grid label g = Done ((squares, label), g) ∧
    length squares = length g * length g ∧
    _square_dict (squares, label) = Done d ∧
    grid_dict g d ∧
    ∀ P (get_center : Square → P),
      ∃ centers,
        _grid_centers get_center (squares, label) = Done centers ∧
        ∀ c, centers !! c = get_center <$> d !! c.
Proof.
  set (squares := flat_map (λ j, map (group_at g j) (seq 0 (length g)))
                    (seq 0 (length g))).
  assert (Hlen : length squares = length g * length g)
    by apply length_row_major.
  assert (Hm : int_sqrt (length squares) = length g).
  { unfold int_sqrt. rewrite Hlen. apply Nat.sqrt_square. }
  assert (Hat : ∀ c : Cell,
            (0 ≤ c.1 < Z.of_nat (length g))%Z ∧ (0 ≤ c.2 < Z.of_nat (length g))%Z →
            squares !! (Z.to_nat c.2 * length g + Z.to_nat c.1)
            = Some (MkGroup (square_of g c))).
  { intros [cx cy] [Hx Hy]. simpl in *. unfold squares.
    replace (Z.to_nat cy * length g + Z.to_nat cx)
      with ((Z.to_nat cy - 0) * length g + Z.to_nat cx) by lia.
    rewrite lookup_row_major by lia.
    unfold group_at. by rewrite !Z2Nat.id by lia. }
  destruct (index_squares_lookup grp_square squares) as (d & Hd & Hlook).
  exists squares, d. split; [|split; [done|split; [|split]]].
  - unfold _build_grid, mbind, M_bind, maze_len. rewrite Nat2Z.id.
    by rewrite build_grid_rows_spec.
  - unfold _square_dict. cbn [fst]. by rewrite Hd.
  - intros c. rewrite Hlook, Hm. unfold in_bounds.
    destruct (decide ((0 ≤ c.1 < Z.of_nat (length g))%Z
                      ∧ (0 ≤ c.2 < Z.of_nat (length g))%Z)) as [Hin|Hout].
    + by rewrite Hat.
    + done.
  - intros P get_center.
    destruct (index_squares_lookup (λ grp, get_center (grp_square grp)) squares)
      as (centers & Hc & Hclook).
    exists centers. split; [unfold _grid_centers; cbn [fst]; by rewrite Hc|].
    intros c. rewrite Hclook, Hlook.
    destruct (decide _); [|done]. by rewrite <- option_fmap_compose.
Qed.
End BuildGrid.

(** X11: on a square maze [_build_grid] builds one square per cell, row by
    row, and [_square_dict] of the result maps each cell inside the maze,
    and nothing else, to the square built for it, whose fill is [WHITE]
    when the cell is passable and [GREY_B] when it is a wall. *)
Theorem build_grid_square_dict {L} (label : L) g :
  square g →
  ∃ squares d,
    _build_grid label g = Done ((squares, label), g) ∧
    length squares = length g * length g ∧
    _square_dict (squares, label) = Done d ∧
    ∀ c, d !! c = if decide (in_bounds g c)
                  then Some (MkSquare c.1 c.2
                               (if decide (passable g c) then WHITE else GREY_B))
                  else None.
Proof.
  intros Hsq.
  destruct (build_grid_dict g Hsq label) as (squares & d & ? & ? & ? & Hd & _).
  by exists squares, d.
Qed.

Lemma build_grid_square_dict_witness :
  ∃ squares d,
    _build_grid tt maze_wall = Done ((squares, tt), maze_wall) ∧
    length squares = length maze_wall * length maze_wall ∧
    _square_dict (squares, tt) = Done d ∧
    ∀ c, d !! c = if decide (in_bounds maze_wall c)
                  then Some (MkSquare c.1 c.2
                               (if decide (passable maze_wall c)
                                then WHITE else GREY_B))
                  else None.
Proof.
  apply build_grid_square_dict. repeat constructor.
Defined.

(** X12: on the grid drawn for a square maze [_place_marker] puts the dot
    at the centre of the square of [coord] when [coord] lies inside the
    maze, and raises [KeyError] for every other coordinate. *)
Theorem place_marker_in_bounds {L P} (get_center : Square → P) (label : L)
    g squares coord :
  square g →
  _build_grid label g = Done ((squares, label), g) →
  _place_marker get_center (squares, label) coord
  = Done (if decide (in_bounds g coord)
          then Item (get_center (MkSquare coord.1 coord.2
                                   (if decide (passable g coord)
                                    then WHITE else GREY_B)))
          else KeyError coord).
Proof.
  intros Hsq Hbuild.
  destruct (build_grid_dict g Hsq label)
    as (squares' & d & Hbuild' & _ & _ & Hd & Hcenters).
  rewrite Hbuild in Hbuild'. simplify_eq.
  destruct (Hcenters P get_center) as (centers & Hrun & Hlook).
  unfold _place_marker. rewrite Hrun. simpl.
  rewrite Hlook, Hd.
  by destruct (decide (in_bounds g coord)).
Qed.

Lemma place_marker_in_bounds_witness :
  _place_marker (λ sq, (sq_col sq, sq_row sq))
    ([MkGroup (MkSquare 0 0 GREY_B); MkGroup (MkSquare 1 0 WHITE);
      MkGroup (MkSquare 0 1 WHITE); MkGroup (MkSquare 1 1 WHITE)], tt)
    (2, 0)%Z
  = Done (if decide (in_bounds maze_wall (2, 0)%Z)
          then Item ((λ sq, (sq_col sq, sq_row sq))
                       (MkSquare (2, 0)%Z.1 (2, 0)%Z.2
                          (if decide (passable maze_wall (2, 0)%Z)
                           then WHITE else GREY_B)))
          else KeyError (2, 0)%Z).
Proof.
  apply (place_marker_in_bounds (λ sq, (sq_col sq, sq_row sq)) tt maze_wall).
  - repeat constructor.
  - vm_compute. reflexivity.
Defined.

(** ** The playback *)

Lemma length_animate_queue_push count :
  length (_animate_queue_push count) = 2 * (6 `min` count).
Proof.
  unfold _animate_queue_push.
  assert (Hlen : ∀ l : list nat,
            length (flat_map (λ i, [FadeIn i; FadeOut i]) l) = 2 * length l).
  { intros l. induction l as [|i l IH]; simpl; lia. }
  by rewrite Hlen, length_seq.
Qed.

Section Playback.
Context (g : Grid) (d : gmap Cell Square) (Hd : grid_dict g d).

Lemma grid_dict_passable c : passable g c → d !! c = Some (square_of g c).
Proof. intros [Hin _]. rewrite Hd. by rewrite decide_True. Qed.

Lemma square_of_free c : passable g c → free_square g (square_of g c).
Proof.
  intros Hc. unfold free_square, square_of. simpl.
  rewrite decide_True by done. split; [done|]. by destruct c.
Qed.

Lemma layer_anims_spec num den layer anims :
  Forall (passable g) layer →
  layer_anims d num den layer anims
  = Item (anims ++ map (λ c, FillAnim (square_of g c) num den) layer).
Proof.
  intros Hall. revert anims.
  induction Hall as [|c layer Hc _ IH]; intros anims; simpl.
  - by rewrite app_nil_r.
  - rewrite grid_dict_passable by done. rewrite IH. by rewrite <- app_assoc.
Qed.

Lemma path_squares_spec path squares :
  Forall (passable g) path →
  path_squares d path squares = Item (squares ++ map (square_of g) path).
Proof.
  intros Hall. revert squares.
  induction Hall as [|c path Hc _ IH]; intros squares; simpl.
  - by rewrite app_nil_r.
  - rewrite grid_dict_passable by done. rewrite IH. by rewrite <- app_assoc.
Qed.

Lemma play_layers_spec goal nl ls :
  ∀ k sc,
    Forall (Forall (passable g)) ls →
    Forall (λ Li : list Cell, Li ≠ []) ls →
    k + length ls = nl →
    (∀ i Li, ls !! i = Some Li → goal ∈ Li → S i = length ls) →
    Forall (play_ok g) (sc_played sc) →
    ∃ sc',
      play_layers d goal nl k ls sc = Item sc' ∧
      Forall (play_ok g) (sc_played sc') ∧
      sc_bfs_steps sc' = sc_bfs_steps sc + length ls ∧
      (ls ≠ [] → sc_bfs_counter sc' = sc_bfs_steps sc') ∧
      sc_random_running sc'
      = (if decide (goal ∈ concat ls) then 0%float else sc_random_running sc).
Proof.
  induction ls as [|layer ls IH]; intros k sc Hpass Hne Hk Hlast Hok.
  - exists sc. split; [done|]. split; [done|]. split; [simpl; lia|].
    split; [done|]. by destruct (decide (goal ∈ concat [])) as [?%elem_of_nil|].
  - apply Forall_cons in Hpass as [Hlayer Hpass].
    apply Forall_cons in Hne as [Hlne Hne].
    cbn [play_layers]. rewrite layer_anims_spec by done. cbn [app].
    assert (Hden : k < match nl with 0 => 1 | S _ => nl end).
    { destruct nl; simpl in *; lia. }
    assert (Hok1 : Forall (play_ok g)
              (sc_played sc
               ++ [PlayFill (map (λ c, FillAnim (square_of g c) k
                                         match nl with 0 => 1 | S _ => nl end)
                               layer);
                   PlayQueue (_animate_queue_push (length layer))])).
    { apply Forall_app. split; [done|].
      constructor; [|constructor; [|constructor]].
      - simpl. split; [by destruct layer|].
        apply Forall_fmap. eapply Forall_impl; [exact Hlayer|].
        intros c Hc. simpl. split; [by apply square_of_free|done].
      - simpl. rewrite length_animate_queue_push.
        assert (1 ≤ 6 `min` length layer ≤ 6).
        { split; [|apply Nat.le_min_l].
          apply Nat.min_glb; [lia|]. destruct layer; [done|simpl; lia]. }
        lia. }
    destruct (decide (goal ∈ layer)) as [Hg|Hg].
    + assert (ls = []) as ->.
      { specialize (Hlast 0 layer eq_refl Hg). simpl in Hlast.
        destruct ls; [done|simpl in Hlast; lia]. }
      rewrite grid_dict_passable
        by (eapply (proj1 (Forall_forall _ _) Hlayer); done).
      eexists. split; [done|]. cbn [sc_played sc_bfs_steps sc_bfs_counter
                                     sc_random_running].
      split.
      { apply Forall_app. split; [done|]. constructor; [|constructor].
        simpl. apply square_of_free.
        by eapply (proj1 (Forall_forall _ _) Hlayer). }
      split; [simpl; lia|]. split; [done|].
      rewrite decide_True; [done|]. simpl. rewrite app_nil_r. done.
    + destruct (IH (S k)
                  {| sc_played :=
                       sc_played sc
                       ++ [PlayFill
                             (map (λ c, FillAnim (square_of g c) k
                                          match nl with 0 => 1 | S _ => nl end)
                                layer);
                           PlayQueue (_animate_queue_push (length layer))];
                     sc_bfs_steps := S (sc_bfs_steps sc);
                     sc_bfs_counter := S (sc_bfs_steps sc);
                     sc_random_running := sc_random_running sc |})
        as (sc' & Hrun & Hok' & Hsteps & Hcounter & Hrunning);
        [done|done|simpl in *; lia| |done|].
      { intros i Li Hi HgLi. specialize (Hlast (S i) Li Hi HgLi).
        simpl in Hlast. lia. }
      exists sc'. split; [done|]. split; [done|].
      cbn [sc_bfs_steps sc_random_running] in *.
      split; [simpl; lia|]. split.
      * intros _. destruct ls as [|l' ls'].
        -- simpl in Hrun. by simplify_eq.
        -- by apply Hcounter.
      * rewrite Hrunning. simpl.
        destruct (decide (goal ∈ concat ls)) as [Hin|Hout].
        -- rewrite decide_True; [done|]. apply elem_of_app. by right.
        -- rewrite decide_False; [done|].
           intros [?|?]%elem_of_app; done.
Qed.
End Playback.

Lemma final_layers_recorded g s goal layers parent v :
  bfs_final g s goal layers parent →
  v ∈ concat layers → is_Some (parent !! v).
Proof.
  intros Hfin Hv.
  destruct (final_config _ _ _ _ _ Hfin) as (c & HR & <- & _ & Hseen).
  pose proof (Reach_Inv _ _ _ _ HR) as HI.
  by apply (inv_dom _ _ _ _ HI), (inv_visited _ _ _ _ HI), Hseen.
Qed.

Lemma final_goal_layer_last g s goal layers parent i Li :
  bfs_final g s goal layers parent →
  layers !! i = Some Li → goal ∈ Li → S i = length layers.
Proof.
  intros Hfin Hi Hg.
  pose proof (final_layers_dist _ _ _ _ _ Hfin i Li goal Hi Hg) as Hd.
  destruct Hd as [Hw Hmin].
  destruct (final_found_goal _ _ _ _ _ Hfin i Hw) as (init & pre & Heq & _).
  assert (Hd' : dist g s goal (length init)).
  { eapply (final_layers_dist _ _ _ _ _ Hfin (length init) (pre ++ [goal])).
    - by rewrite Heq, lookup_app_r, Nat.sub_diag.
    - set_solver. }
  pose proof (dist_inj g s goal i (length init) (conj Hw Hmin) Hd') as ->.
  rewrite Heq, length_app. simpl. lia.
Qed.

(** The whole chain on a square maze with a passable start: the drawn grid,
    its dictionary, the search and the playback. *)
Lemma playback_spec {L} (label : L) g start goal fuel sc :
  square g → passable g start →
  S (S (length g * length g)) ≤ fuel →
  Forall (play_ok g) (sc_played sc) →
  ∃ squares d layers parent sc' path,
    _build_grid label g = Done ((squares, label), g) ∧
    _square_dict (squares, label) = Done d ∧
    _bfs_layers fuel start goal g = Done ((layers, parent), g) ∧
    play_search fuel d layers parent start goal sc = Done (Item (sc', path)) ∧
    Forall (play_ok g) (sc_played sc') ∧
    sc_bfs_steps sc' = sc_bfs_steps sc + length layers ∧
    sc_bfs_counter sc' = sc_bfs_steps sc' ∧
    (reachable g start goal →
     sc_random_running sc' = 0%float ∧
     path_from_to g start goal path ∧
     shortest_path_length g start goal (length layers - 1) ∧
     length path = length layers) ∧
    (¬ reachable g start goal →
     sc_random_running sc' = sc_random_running sc ∧ path = []).
Proof.
  intros Hsq Hs Hfuel Hok.
  destruct (build_grid_dict g Hsq label)
    as (squares & d & Hbuild & _ & Hdict & Hd & _).
  destruct (bfs_layers_reach g start goal fuel Hsq Hfuel)
    as (layers & parent & Hrun & Hfin).
  assert (Hpass : Forall (Forall (passable g)) layers).
  { apply Forall_forall. intros Li HLi. apply Forall_forall. intros v Hv.
    eapply final_layers_passable; [done..|].
    apply elem_of_concat. eauto. }
  destruct (play_layers_spec g d Hd goal (length layers) layers 0 sc)
    as (sc1 & Hplay & Hok1 & Hsteps & Hcounter & Hrunning); [done| |done| |done|].
  { by eapply final_layers_nonempty. }
  { intros i Li. by eapply final_goal_layer_last. }
  pose proof (final_layers_length _ _ _ _ _ Hfin) as [Hlen1 _].
  pose proof (final_parent_size _ _ _ _ _ Hfin) as Hsize.
  assert (Hbudget : size parent < fuel) by lia.
  assert (Hreach : reachable g start goal ↔ goal ∈ concat layers).
  { split.
    - intros [k Hk]%reachable_walk.
      destruct (final_found_goal _ _ _ _ _ Hfin k Hk) as (init & pre & -> & _).
      rewrite concat_app. set_solver.
    - intros (Li & Hv & [i Hi]%list_elem_of_lookup)%elem_of_concat.
      destruct (final_layers_dist _ _ _ _ _ Hfin i Li goal Hi Hv) as [Hw _].
      by eapply walk_reachable. }
  destruct (decide (goal ∈ concat layers)) as [Hin|Hout].
  - pose proof (final_layers_recorded _ _ _ _ _ _ Hfin Hin) as Hrec.
    destruct (reconstruct_path_to _ _ _ _ _ goal fuel Hfin Hs Hrec Hbudget)
      as (path & j & Hpath & Hfrom & Hnd & Hplen & Hdist & Hcells).
    exists squares, d, layers, parent.
    eexists _, path. split; [done|]. split; [done|]. split; [done|].
    split.
    { unfold play_search. rewrite Hplay, Hpath. simpl.
      rewrite (path_squares_spec g d Hd) by (by apply Forall_forall). done. }
    cbn [sc_played sc_bfs_steps sc_bfs_counter sc_random_running].
    split.
    { apply Forall_app. split; [done|].
      constructor; [|constructor; [|constructor]]; simpl;
        apply Forall_fmap, Forall_forall; intros c Hc; simpl;
        by apply square_of_free, Hcells. }
    split; [done|]. split; [apply Hcounter; intros Hnil; rewrite Hnil in Hlen1; simpl in Hlen1; lia|].
    split; [|by intros Hno; destruct Hno; apply Hreach].
    intros _. split; [done|]. split; [done|].
    apply elem_of_concat in Hin as (Li & Hv & [i Hi]%list_elem_of_lookup).
    pose proof (final_goal_layer_last _ _ _ _ _ _ _ Hfin Hi Hv) as Hi'.
    pose proof (final_layers_dist _ _ _ _ _ Hfin i Li goal Hi Hv) as Hdi.
    pose proof (dist_inj _ _ _ _ _ Hdist Hdi) as ->.
    replace (length layers - 1) with i by lia.
    split; [by apply dist_shortest|lia].
  - assert (Hnot : goal ∉ dom parent).
    { intros Hrec%elem_of_dom.
      destruct (final_parent_dist _ _ _ _ _ Hfin goal Hrec) as (i & Hw & _).
      apply Hout, Hreach. by eapply walk_reachable. }
    exists squares, d, layers, parent.
    eexists _, []. split; [done|]. split; [done|]. split; [done|].
    split.
    { unfold play_search, _reconstruct_path. rewrite Hplay.
      rewrite decide_False by done. done. }
    cbn [sc_played sc_bfs_steps sc_bfs_counter sc_random_running].
    split.
    { apply Forall_app. split; [done|].
      constructor; [|constructor; [|constructor]]; simpl; constructor. }
    split; [done|]. split; [apply Hcounter; intros Hnil; rewrite Hnil in Hlen1; simpl in Hlen1; lia|].
    split; [by intros ?%Hreach|]. done.
Qed.

(** X13: on a square maze with a passable start the playback of the search
    runs through without [KeyError]: every cell of every layer and of the
    path has a square in the dictionary built from the drawn grid.  Every
    square it fills, flashes, highlights or shimmers is the free square of a
    passable cell, never a wall; the colour parameter of a fill lies in
    [0, 1); and every queue animation shows between one and six squares. *)
Theorem playback_touches_free_squares {L} (label : L) g start goal fuel sc :
  square g → passable g start →
  S (S (length g * length g)) ≤ fuel →
  Forall (play_ok g) (sc_played sc) →
  ∃ squares d layers parent sc' path,
    _build_grid label g = Done ((squares, label), g) ∧
    _square_dict (squares, label) = Done d ∧
    _bfs_layers fuel start goal g = Done ((layers, parent), g) ∧
    play_search fuel d layers parent start goal sc = Done (Item (sc', path)) ∧
    Forall (play_ok g) (sc_played sc').
Proof.
  intros Hsq Hs Hfuel Hok.
  destruct (playback_spec label g start goal fuel sc Hsq Hs Hfuel Hok)
    as (squares & d & layers & parent & sc' & path & ? & ? & ? & ? & ? & _).
  by exists squares, d, layers, parent, sc', path.
Qed.

Lemma playback_touches_free_squares_witness :
  ∃ squares d layers parent sc' path,
    _build_grid tt maze3 = Done ((squares, tt), maze3) ∧
    _square_dict (squares, tt) = Done d ∧
    _bfs_layers 11 (0, 0)%Z (2, 2)%Z maze3 = Done ((layers, parent), maze3) ∧
    play_search 11 d layers parent (0, 0)%Z (2, 2)%Z (Scene [] 0 0 1%float)
    = Done (Item (sc', path)) ∧
    Forall (play_ok maze3) (sc_played sc').
Proof.
  apply playback_touches_free_squares.
  - apply maze3_square.
  - solve_passable.
  - simpl. lia.
  - constructor.
Defined.

(** X14: after the playback the step counter has advanced by the number of
    returned layers and the displayed counter shows it.  When the goal is
    reachable the walker has been stopped ([random_running] is 0), that
    number is the shortest path length plus one, and the highlighted path
    has as many cells; when it is not, [random_running] is left as it was,
    so the walker is never stopped, and the path is empty. *)
Theorem playback_counter_and_stop {L} (label : L) g start goal fuel sc :
  square g → passable g start →
  S (S (length g * length g)) ≤ fuel →
  Forall (play_ok g) (sc_played sc) →
  ∃ squares d layers parent sc' path,
    _build_grid label g = Done ((squares, label), g) ∧
    _square_dict (squares, label) = Done d ∧
    _bfs_layers fuel start goal g = Done ((layers, parent), g) ∧
    play_search fuel d layers parent start goal sc = Done (Item (sc', path)) ∧
    sc_bfs_steps sc' = sc_bfs_steps sc + length layers ∧
    sc_bfs_counter sc' = sc_bfs_steps sc' ∧
    (reachable g start goal →
     sc_random_running sc' = 0%float ∧
     path_from_to g start goal path ∧
     shortest_path_length g start goal (length layers - 1) ∧
     length path = length layers) ∧
    (¬ reachable g start goal →
     sc_random_running sc' = sc_random_running sc ∧ path = []).
Proof.
  intros Hsq Hs Hfuel Hok.
  destruct (playback_spec label g start goal fuel sc Hsq Hs Hfuel Hok)
    as (squares & d & layers & parent & sc' & path
        & ? & ? & ? & ? & _ & ? & ? & ? & ?).
  by exists squares, d, layers, parent, sc', path.
Qed.

Lemma playback_counter_and_stop_witness :
  ∃ squares d layers parent sc' path,
    _build_grid tt maze3 = Done ((squares, tt), maze3) ∧
    _square_dict (squares, tt) = Done d ∧
    _bfs_layers 11 (0, 0)%Z (2, 2)%Z maze3 = Done ((layers, parent), maze3) ∧
    play_search 11 d layers parent (0, 0)%Z (2, 2)%Z (Scene [] 0 0 1%float)
    = Done (Item (sc', path)) ∧
    sc_bfs_steps sc' = sc_bfs_steps (Scene [] 0 0 1%float) + length layers ∧
    sc_bfs_counter sc' = sc_bfs_steps sc' ∧
    (reachable maze3 (0, 0)%Z (2, 2)%Z →
     sc_random_running sc' = 0%float ∧
     path_from_to maze3 (0, 0)%Z (2, 2)%Z path ∧
     shortest_path_length maze3 (0, 0)%Z (2, 2)%Z (length layers - 1) ∧
     length path = length layers) ∧
    (¬ reachable maze3 (0, 0)%Z (2, 2)%Z →
     sc_random_running sc' = sc_random_running (Scene [] 0 0 1%float) ∧
     path = []).
Proof.
  apply playback_counter_and_stop.
  - apply maze3_square.
  - solve_passable.
  - simpl. lia.
  - constructor.
Defined.

(** ** The walker over many frames *)

Lemma walk_app g a b c j k :
  walk g a b j → walk g b c k → walk g a c (j + k).
Proof.
  intros Hab Hbc. induction Hbc as [|u v k Hbu IH Hv].
  - by rewrite Nat.add_0_r.
  - rewrite Nat.add_succ_r. by econstructor.
Qed.

Section WalkerFrames.
Context `{Random rng}.
Context (g : Grid) (Hsq : square g).
Context (Hbelow : ∀ n (r0 : rng), 0 < n → (rng_randbelow n r0).1 < n).

(** One call of the updater: it returns, the walker stays or steps to an
    open neighbour, and a stopped walker changes nothing at all. *)
Lemma rw_updater_move random_running dt s (r : rng) :
  ∃ s' r',
    rw_updater random_running dt s r g = Done ((s', r'), g) ∧
    (rw_pos s' = rw_pos s ∨ rw_pos s' ∈ open_nbrs g (rw_pos s)) ∧
    ((random_running <? 0.5)%float = true → s' = s ∧ r' = r).
Proof.
  unfold rw_updater.
  destruct (random_running <? 0.5)%float.
  { exists s, r. split; [done|]. split; [by left|done]. }
  cbn [rw_pos rw_last_move_time rw_step_interval].
  destruct (rw_last_move_time s + dt <? rw_step_interval s)%float.
  { eexists _, r. split; [done|]. split; [by left|done]. }
  unfold mbind, M_bind. rewrite neighbors_square by done.
  destruct (open_nbrs g (rw_pos s)) as [|nb nbs] eqn:Hnbs.
  { eexists _, r. split; [done|]. split; [by left|done]. }
  unfold lift, choice.
  pose proof (Hbelow (length (nb :: nbs)) r) as Hi.
  destruct (rng_randbelow (length (nb :: nbs)) r) as [i r'].
  destruct (lookup_lt_is_Some_2 (nb :: nbs) i) as [c Hc].
  { apply Hi. simpl. lia. }
  rewrite Hc. eexists _, r'. split; [done|]. simpl. split; [|done].
  right. by eapply list_elem_of_lookup_2.
Qed.

Lemma rw_frames_walk frames s (r : rng) :
  ∃ s' r' k,
    rw_frames frames s r g = Done ((s', r'), g) ∧
    walk g (rw_pos s) (rw_pos s') k ∧ k ≤ length frames ∧
    (Forall (λ fr : float * float, (fr.1 <? 0.5)%float = true) frames →
     s' = s ∧ r' = r).
Proof.
  revert s r. induction frames as [|[running dt] frames IH]; intros s r.
  - exists s, r, 0. split; [done|]. split; [constructor|]. split; [done|done].
  - cbn [rw_frames]. unfold mbind, M_bind.
    destruct (rw_updater_move running dt s r) as (s1 & r1 & -> & Hmove & Hstop).
    destruct (IH s1 r1) as (s' & r' & k & -> & Hwalk & Hk & Hfrozen).
    assert (Hfirst : ∃ j, j ≤ 1 ∧ walk g (rw_pos s) (rw_pos s1) j).
    { destruct Hmove as [->|Hnb].
      - exists 0. split; [lia|constructor].
      - exists 1. split; [lia|]. econstructor; [constructor|done]. }
    destruct Hfirst as (j & Hj & Hwj).
    exists s', r', (j + k). split; [done|].
    split; [by eapply walk_app|]. split; [simpl; lia|].
    intros [Hhead Htail]%Forall_cons. simpl in Hhead.
    destruct (Hstop Hhead) as [-> ->]. by apply Hfrozen.
Qed.
End WalkerFrames.

(** X15: on a square maze, with a generator whose [_randbelow(n)] stays
    below [n], any number of updater calls starting on a passable cell
    returns and leaves the walker on a passable cell that is reachable from
    where it started; and as long as [random_running] is below 0.5 in every
    frame neither the walker's state nor the generator changes. *)
Theorem random_walk_stays_in_maze `{Random rng} g frames s (r : rng) :
  square g →
  (∀ n (r0 : rng), 0 < n → (rng_randbelow n r0).1 < n) →
  passable g (rw_pos s) →
  ∃ s' r',
    rw_frames frames s r g = Done ((s', r'), g) ∧
    passable g (rw_pos s') ∧
    reachable g (rw_pos s) (rw_pos s') ∧
    (Forall (λ fr : float * float, (fr.1 <? 0.5)%float = true) frames →
     s' = s ∧ r' = r).
Proof.
  intros Hsq Hbelow Hstart.
  destruct (rw_frames_walk g Hsq Hbelow frames s r)
    as (s' & r' & k & Hrun & Hwalk & _ & Hfrozen).
  exists s', r'. split; [done|].
  split; [by eapply walk_passable|]. split; [by eapply walk_reachable|done].
Qed.

Lemma random_walk_stays_in_maze_witness :
  ∃ s' r',
    rw_frames [(1, 0.5); (1, 0.5); (0, 0.5)]%float
      (RwState (0, 0)%Z 0%float 0.25%float) 5 maze3
    = Done ((s', r'), maze3) ∧
    passable maze3 (rw_pos s') ∧
    reachable maze3 (0, 0)%Z (rw_pos s') ∧
    (Forall (λ fr : float * float, (fr.1 <? 0.5)%float = true)
       [(1, 0.5); (1, 0.5); (0, 0.5)]%float →
     s' = RwState (0, 0)%Z 0%float 0.25%float ∧ r' = 5).
Proof.
  apply (random_walk_stays_in_maze (rng := nat) maze3
           [(1, 0.5); (1, 0.5); (0, 0.5)]%float
           (RwState (0, 0)%Z 0%float 0.25%float) 5).
  - apply maze3_square.
  - apply counter_rng_below.
  - solve_passable.
Defined.

(** ** The scene's computation *)


